(** * js_game_svg: the collision predicate, the mover and the frame loop

    A shallow embedding of the physics core of the SVG platformer:
    [collision], [move] and [main], as they are written in
    [jsgame.script.js] (module [JsGame]) and in the two earlier variants
    kept in the repository, [unnamed/part_000] (module [Part000]) and
    [unnamed/part_001] (module [Part001]).

    Numbers.  [jsgame.script.js] reads attributes with [parseFloat] and
    compares with a tolerance of 0.1, so its numbers are modelled as exact
    rationals ([Q]).  On the integer coordinates that the game keeps, this
    is what the script computes; the comparisons of [collision] on other
    binary64 numbers, where the two sums with the tolerance are rounded,
    are modelled apart, with primitive floats (module [JsGameFloat]).
    The two earlier variants read every attribute with [parseInt] and are
    only ever called with integer velocities (3, -5, +1/-1, 3 * running), so
    their numbers are [Z].

    The DOM.  [document.querySelectorAll("rect, image")] is a list of
    elements in document order; an element reference is its position in that
    list, so that [r === e] is equality of positions.  The player
    ([#movable]) and the elements tagged [elevator] are among them.  Console
    output is not modelled. *)

From Stdlib Require Import ZArith QArith Qround Qabs Lqa Lia Bool List.
From Stdlib Require PrimFloat.
From stdpp Require Import base list gmap strings.
Import ListNotations.

Local Open Scope Q_scope.

(** ** Axes and attribute names *)

Inductive Axis := AxisX | AxisY.

Inductive Attr := A_x | A_y | A_width | A_height.

Definition attr_of_axis (axis : Axis) : Attr :=
  match axis with AxisX => A_x | AxisY => A_y end.

(** [const sizeName = axis === "x" ? "width" : "height"] *)
Definition sizeName (axis : Axis) : Attr :=
  match axis with AxisX => A_width | AxisY => A_height end.

Definition other_axis (axis : Axis) : Axis :=
  match axis with AxisX => AxisY | AxisY => AxisX end.

(** The four sides of a box, [{left, right, top, bottom}]. *)
Record Box (num : Type) := mkBox {
  b_left : num; b_right : num; b_top : num; b_bottom : num }.
Arguments mkBox {num}.
Arguments b_left {num}.
Arguments b_right {num}.
Arguments b_top {num}.
Arguments b_bottom {num}.

(** [a < b] on rationals as a boolean. *)
Definition Qlt_bool (a b : Q) : bool := negb (Qle_bool b a).

(** * The current program: jsgame.script.js *)

Module JsGame.

(** An SVG [rect] or [image] of the level: its four numeric attributes, the
    two class tags and the container test that [move] looks at, and the two
    properties that [main] attaches to elevator elements. *)
Record Elem := mkElem {
  attr_x : Q;
  attr_y : Q;
  attr_width : Q;
  attr_height : Q;
  traversable : bool;             (* $(r).hasClass("traversable") *)
  in_pattern : bool;              (* $(r).parent()[0].nodeName === "pattern" *)
  elevator : bool;                (* matches ".elevator" *)
  elevator_vel : option Q;        (* elevator.elevator_vel, unset at first *)
  is_on_elevator_previous : bool  (* elevator.is_on_elevator_previous *)
}.

(** [getAttrValue(elem, attr)]: the attribute as a number. *)
Definition getAttrValue (elem : Elem) (attr : Attr) : Q :=
  match attr with
  | A_x => attr_x elem
  | A_y => attr_y elem
  | A_width => attr_width elem
  | A_height => attr_height elem
  end.

(** [Math.round(value * 10) / 10]; [Math.round] is [floor (v + 1/2)]. *)
Definition round1 (value : Q) : Q :=
  inject_Z (Qfloor (value * 10 + (1 # 2))) / 10.

(** [setAttrValue(elem, attr, value)], used by [move] on the moved axis
    only: the rounded value is stored in the attribute. *)
Definition setAttrValue (elem : Elem) (axis : Axis) (value : Q) : Elem :=
  match axis with
  | AxisX => mkElem (round1 value) (attr_y elem) (attr_width elem) (attr_height elem)
               (traversable elem) (in_pattern elem) (elevator elem)
               (elevator_vel elem) (is_on_elevator_previous elem)
  | AxisY => mkElem (attr_x elem) (round1 value) (attr_width elem) (attr_height elem)
               (traversable elem) (in_pattern elem) (elevator elem)
               (elevator_vel elem) (is_on_elevator_previous elem)
  end.

(** [getSVGRect(elem)], from the element's bounding box in user space. *)
Definition getSVGRect (elem : Elem) : Box Q :=
  {| b_left := attr_x elem;
     b_right := attr_x elem + attr_width elem;
     b_top := attr_y elem;
     b_bottom := attr_y elem + attr_height elem |}.

Definition tolerance : Q := 1 # 10.

(** [collision(firstElement, secondElement)]; [None] is a missing element
    ([if (!firstElement || !secondElement) return false]). *)
Definition collision (firstElement secondElement : option Elem) : bool :=
  match firstElement, secondElement with
  | Some f, Some s =>
      let first := getSVGRect f in
      let second := getSVGRect s in
      Qle_bool (b_left first) (b_right second + tolerance) &&
      Qle_bool (b_left second - tolerance) (b_right first) &&
      Qle_bool (b_top first) (b_bottom second + tolerance) &&
      Qle_bool (b_top second - tolerance) (b_bottom first)
  | _, _ => false
  end.

(** What one call of [move] leaves behind: the document after the call, the
    returned [difference] and the local [collided_with]. *)
Record MoveResult := mkMoveResult {
  mr_store : list Elem;
  difference : Q;
  collided_with : option nat }.

(** The resting position computed inside [if (collision(r, e))]. *)
Definition new_position (axis : Axis) (vel before : Q) (r e : Elem) : Q :=
  if Qlt_bool vel 0 then
    let obstacle_bottom := getAttrValue r (attr_of_axis axis) + getAttrValue r (sizeName axis) in
    obstacle_bottom + 1
  else if Qlt_bool 0 vel then
    let obstacle_top := getAttrValue r (attr_of_axis axis) in
    let element_size := getAttrValue e (sizeName axis) in
    obstacle_top - element_size - 1
  else before.

(** The [for (const r of document.querySelectorAll("rect, image"))] loop of
    [move].  [i] is the position of the head of [rs] in the document, [e]
    the moved element at its tentative position.  Returning without a
    recursive call is the [break]. *)
Fixpoint scan (movable : nat) (axis : Axis) (vel before : Q)
    (i : nat) (rs : list Elem) (e : Elem) : Elem * option nat :=
  match rs with
  | [] => (e, None)
  | r :: rest =>
      if Nat.eqb i movable then scan movable axis vel before (S i) rest e
      else if traversable r then scan movable axis vel before (S i) rest e
      else if in_pattern r then scan movable axis vel before (S i) rest e
      else if collision (Some r) (Some e) then
        (setAttrValue e (axis) (new_position axis vel before r e), Some i)
      else scan movable axis vel before (S i) rest e
  end.

(** [move(movable, axis, vel, stopped)] on the document [doc].  A position
    outside the document stands for a missing element: every access to it
    is guarded or caught, nothing is written and the difference is 0. *)
Definition move (doc : list Elem) (movable : nat) (axis : Axis) (vel : Q) : MoveResult :=
  match doc !! movable with
  | None => mkMoveResult doc 0 None
  | Some e =>
      let before := getAttrValue e (attr_of_axis axis) in
      let '(e', collided) := scan movable axis vel before 0 doc (setAttrValue e axis (before + vel)) in
      let after := getAttrValue e' (attr_of_axis axis) in
      mkMoveResult (<[movable := e']> doc) (after - before) collided
  end.

(** The argument [stopped] is called with, when it is called:
    [if (stopped != null && difference === 0 && collided_with)]. *)
Definition stopped_arg (r : MoveResult) : option nat :=
  if Qeq_bool (difference r) 0 then collided_with r else None.

(** ** The frame loop *)

Record Input := mkInput { in_left : bool; in_right : bool; jumping : bool }.

Record State := mkState {
  doc : list Elem;
  jumping_previous : bool;
  jump_counter : Z;
  ground_previous : option nat }.

(** [!elevator.elevator_vel]: unset or zero. *)
Definition vel_unset (v : option Q) : bool :=
  match v with None => true | Some q => Qeq_bool q 0 end.

Definition set_elevator_state (el : Elem) (v : option Q) (on : bool) : Elem :=
  mkElem (attr_x el) (attr_y el) (attr_width el) (attr_height el)
    (traversable el) (in_pattern el) (elevator el) v on.

(** [elevator.elevator_vel = -elevator.elevator_vel] *)
Definition invert (el : Elem) : Elem :=
  set_elevator_state el (option_map Qopp (elevator_vel el)) (is_on_elevator_previous el).

Definition option_nat_eqb (a : option nat) (b : nat) : bool :=
  match a with Some n => Nat.eqb n b | None => false end.

(** The head of one iteration of
    [for (const elevator of document.querySelectorAll(".elevator"))], for the
    elevator at position [i]: the lazy default of [elevator_vel], which is
    the velocity [v] of this iteration, and [is_on_elevator]. *)
Definition elevator_vel_now (el : Elem) : Q :=
  if vel_unset (elevator_vel el) then 1 else default 1 (elevator_vel el).

Definition elevator_enter (ground : option nat) (d : list Elem) (i : nat) (el : Elem) : list Elem :=
  <[i := set_elevator_state el (Some (elevator_vel_now el)) (option_nat_eqb ground i)]> d.

(** [if (is_on_elevator) move(m, "y", elevator.elevator_vel, ...)];
    the callback only writes to the console. *)
Definition elevator_carry (m : nat) (ground : option nat) (d : list Elem) (i : nat) (el : Elem) : list Elem :=
  let d1 := elevator_enter ground d i el in
  if option_nat_eqb ground i then mr_store (move d1 m AxisY (elevator_vel_now el)) else d1.

(** [move(elevator, "y", elevator.elevator_vel, ...)], the elevator's own move. *)
Definition elevator_move (m : nat) (ground : option nat) (d : list Elem) (i : nat) (el : Elem) : MoveResult :=
  move (elevator_carry m ground d i el) i AxisY (elevator_vel_now el).

(** The whole iteration; [m] is [#movable].  Both branches of the callback
    of the elevator's own move negate [elevator_vel]. *)
Definition elevator_step (m : nat) (ground : option nat) (d : list Elem) (i : nat) : list Elem :=
  match d !! i with
  | None => d
  | Some el =>
      let r := elevator_move m ground d i el in
      match stopped_arg r with
      | Some _ => alter invert i (mr_store r)
      | None => mr_store r
      end
  end.

(** The positions of the elements matching [".elevator"], in document order. *)
Fixpoint elevator_indices (i : nat) (d : list Elem) : list nat :=
  match d with
  | [] => []
  | el :: rest => if elevator el then i :: elevator_indices (S i) rest
                  else elevator_indices (S i) rest
  end.

Definition elevators (m : nat) (ground : option nat) (d : list Elem) : list Elem :=
  fold_left (elevator_step m ground) (elevator_indices 0 d) d.

Definition running (inp : Input) : Q :=
  if in_left inp && in_right inp then 0
  else if in_left inp then -1
  else if in_right inp then 1
  else 0.

(** Everything one call of [main] computes, so that statements can refer to
    the tick's [ground], to the counter between the statements of the jump
    block and to the final [y_difference]. *)
Record Tick := mkTick {
  t_ground : option nat;          (* ground, after the gravity move *)
  t_after_elevators : list Elem;  (* the document after the elevator loop *)
  t_triggered : bool;             (* jumping && !jumping_previous && ground != null *)
  t_counter_set : Z;              (* jump_counter after the trigger test *)
  t_counter_dec : Z;              (* jump_counter after the ascent block *)
  t_after_jump : list Elem;       (* the document after the ascent block *)
  t_y_difference : Q;             (* y_difference when it is tested *)
  t_roof_hit : bool;              (* y_difference === 0 && jump_counter > 0 *)
  t_next : State }.

Definition tick (m : nat) (inp : Input) (s : State) : Tick :=
  (* gravity; the callback sets ground *)
  let g := move (doc s) m AxisY 3 in
  let y_difference := 0 + difference g in
  let ground := stopped_arg g in
  (* elevators *)
  let d1 := elevators m ground (mr_store g) in
  (* if (jumping && !jumping_previous && ground != null) jump_counter = 15 *)
  let triggered := jumping inp && negb (jumping_previous s) && bool_decide (ground <> None) in
  let jc1 := if triggered then 15%Z else jump_counter s in
  (* if (jump_counter > 0) { jump_counter--; y_difference += move(m, "y", -5) } *)
  let ascending := (0 <? jc1)%Z in
  let j := move d1 m AxisY (-5) in
  let jc2 := if ascending then (jc1 - 1)%Z else jc1 in
  let y_difference2 := if ascending then y_difference + difference j else y_difference in
  let d2 := if ascending then mr_store j else d1 in
  (* if (y_difference === 0 && jump_counter > 0) jump_counter = 0 *)
  let roof_hit := Qeq_bool y_difference2 0 && (0 <? jc2)%Z in
  let jc3 := if roof_hit then 0%Z else jc2 in
  (* run *)
  let d3 := mr_store (move d2 m AxisX (3 * running inp)) in
  mkTick ground d1 triggered jc1 jc2 d2 y_difference2 roof_hit
    (mkState d3 (jumping inp) jc3 ground).

(** [main()], with the input latch read once. *)
Definition main (m : nat) (inp : Input) (s : State) : State := t_next (tick m inp s).

(** The state when the page is loaded. *)
Definition initial (d : list Elem) : State := mkState d false 0 None.

Fixpoint run (m : nat) (inps : list Input) (s : State) : State :=
  match inps with
  | [] => s
  | inp :: rest => run m rest (main m inp s)
  end.

(** No jump is triggered and no roof is hit in any tick of the run. *)
Fixpoint quiet (m : nat) (inps : list Input) (s : State) : bool :=
  match inps with
  | [] => true
  | inp :: rest =>
      negb (t_triggered (tick m inp s)) && negb (t_roof_hit (tick m inp s)) &&
      quiet m rest (main m inp s)
  end.

(** No roof is hit in any tick of the run. *)
Fixpoint no_roof_hit (m : nat) (inps : list Input) (s : State) : bool :=
  match inps with
  | [] => true
  | inp :: rest => negb (t_roof_hit (tick m inp s)) && no_roof_hit m rest (main m inp s)
  end.

(** ** Notions used in the statements *)

(** Sizes are not negative, as for every box that an SVG [rect] or [image]
    renders. *)
Definition valid_box (a : Elem) : Prop := 0 <= attr_width a /\ 0 <= attr_height a.

Definition touching_x (a b : Elem) : Prop :=
  b_right (getSVGRect a) == b_left (getSVGRect b) \/
  b_right (getSVGRect b) == b_left (getSVGRect a).

Definition touching_y (a b : Elem) : Prop :=
  b_bottom (getSVGRect a) == b_top (getSVGRect b) \/
  b_bottom (getSVGRect b) == b_top (getSVGRect a).

Definition overlapping_x (a b : Elem) : Prop :=
  b_left (getSVGRect a) <= b_right (getSVGRect b) /\
  b_left (getSVGRect b) <= b_right (getSVGRect a).

Definition overlapping_y (a b : Elem) : Prop :=
  b_top (getSVGRect a) <= b_bottom (getSVGRect b) /\
  b_top (getSVGRect b) <= b_bottom (getSVGRect a).

(** [r], at position [j] of the document, is a rectangle that the scan of
    [move] resolves against: it is not the moved element, not traversable,
    not inside a [pattern], and it collides with the element [e]. *)
Definition blocks (movable : nat) (e : Elem) (j : nat) (r : Elem) : bool :=
  negb (Nat.eqb j movable) && negb (traversable r) && negb (in_pattern r) &&
  collision (Some r) (Some e).

(** The element of [move] at its tentative position. *)
Definition tentative (e : Elem) (axis : Axis) (vel : Q) : Elem :=
  setAttrValue e axis (getAttrValue e (attr_of_axis axis) + vel).

(** What [move] leaves of the moved element: everything but the coordinate
    on the axis of the move. *)
Definition same_except (axis : Axis) (e e' : Elem) : Prop :=
  getAttrValue e' (attr_of_axis (other_axis axis)) = getAttrValue e (attr_of_axis (other_axis axis)) /\
  attr_width e' = attr_width e /\
  attr_height e' = attr_height e /\
  traversable e' = traversable e /\
  in_pattern e' = in_pattern e /\
  elevator e' = elevator e /\
  elevator_vel e' = elevator_vel e /\
  is_on_elevator_previous e' = is_on_elevator_previous e.

(** The part of the loop that has run before, and the part that runs after,
    the iteration of one elevator. *)
Definition elevators_from (m : nat) (ground : option nat) (l : list nat) (d : list Elem) : list Elem :=
  fold_left (elevator_step m ground) l d.

Definition unit_vel (v : option Q) : Prop := v = Some 1 \/ v = Some (-1).

Definition unset_or_unit (v : option Q) : Prop := v = None \/ unit_vel v.

(** No element carries a velocity other than +1 and -1. *)
Definition vel_invariant (d : list Elem) : Prop :=
  forall j v, elevator_vel <$> d !! j = Some v -> unset_or_unit v.

Definition unit_at (d : list Elem) (j : nat) : Prop :=
  exists v, elevator_vel <$> d !! j = Some v /\ unit_vel v.

(** ** Levels and inputs used as examples *)

Definition box (x y w h : Z) : Elem :=
  mkElem (inject_Z x) (inject_Z y) (inject_Z w) (inject_Z h) false false false None false.

Definition player0 : Elem := box 0 89 10 10.
Definition ground0 : Elem := box 0 100 200 20.
Definition slab0 : Elem := box 0 101 200 20.

(** A small level: the player standing on the ground, and an elevator that
    hangs one unit above the player's head. *)
Definition lift0 : Elem :=
  mkElem 0 83 10 5 false false true None false.

Definition level0 : list Elem := [player0; ground0; lift0].

Definition idle : Input := mkInput false false false.




(** A player on open ground; the jump key is pressed and held. *)
Definition meadow : list Elem := [player0; ground0].
Definition hold : Input := mkInput false false true.

(** A staircase with steps five units high: the ground, a first step and a
    second step on it.  The player runs to the right, jumps, releases the
    key for one tick and presses it again. *)
Definition stairs : list Elem :=
  [box 0 89 10 10; box 0 100 200 20; box 12 95 100 5; box 15 90 100 5].
Definition jump_right : Input := mkInput false true true.
Definition run_right : Input := mkInput false true false.
Definition climb : list Input := jump_right :: run_right :: jump_right :: repeat jump_right 12.

(** A player drawn five units into the ground. *)
Definition sunk : list Elem := [box 0 95 10 10; box 0 100 200 20].

(** A player standing on a two unit layer of turf that lies on the soil; no
    two boxes overlap, and the soil comes first in the document. *)
Definition turf : list Elem := [box 50 89 10 10; box 0 102 200 20; box 0 100 200 2].

End JsGame.

(** * The comparisons of collision in binary64

    The numbers of the script are binary64 floating point numbers.  The four
    numbers of a box are the ones [getSVGRect] reads, from [getBBox()] or
    with [parseFloat]; the two sums of each box and the four sums and
    differences with the tolerance are rounded as the script rounds them. *)

Module JsGameFloat.
Import PrimFloat.

Local Open Scope float_scope.
#[local] Set Warnings "-inexact-float".

Record Rect64 := mkRect64 {
  x64 : float; y64 : float; width64 : float; height64 : float }.

Definition getSVGRect (elem : Rect64) : Box float :=
  {| b_left := x64 elem;
     b_right := x64 elem + width64 elem;
     b_top := y64 elem;
     b_bottom := y64 elem + height64 elem |}.

Definition tolerance : float := 0.1.

(** [collision(firstElement, secondElement)]; [a >= b] is [b <= a]. *)
Definition collision (firstElement secondElement : option Rect64) : bool :=
  match firstElement, secondElement with
  | Some f, Some s =>
      let first := getSVGRect f in
      let second := getSVGRect s in
      (b_left first <=? b_right second + tolerance) &&
      (b_left second - tolerance <=? b_right first) &&
      (b_top first <=? b_bottom second + tolerance) &&
      (b_top second - tolerance <=? b_bottom first)
  | _, _ => false
  end.

(** A box 0.3 wide at the origin, and a box that starts 0.4 to the right of
    the origin: the gap between them is the tolerance. *)
Definition narrow : Rect64 := mkRect64 0 0 0.3 1.
Definition shifted : Rect64 := mkRect64 0.4 0 1 1.

End JsGameFloat.

(** * The earlier variants: unnamed/part_000 and unnamed/part_001

    Both read positions and sizes with [parseInt] and share the text of
    [move] up to three points: the comparison used by [collision], the
    one unit gap added to the resting position, and the test that leaves
    out the children of a [pattern]. *)

Local Open Scope Z_scope.

Module Legacy.

Record Rect := mkRect {
  rect_x : Z;
  rect_y : Z;
  rect_width : Z;
  rect_height : Z;
  rect_traversable : bool;   (* $(r).hasClass("traversable") *)
  rect_in_pattern : bool     (* $(r).parent()[0].nodeName === "pattern" *)
}.

(** [parseInt(r.attributes[attr].value)] *)
Definition attr (r : Rect) (a : Attr) : Z :=
  match a with
  | A_x => rect_x r
  | A_y => rect_y r
  | A_width => rect_width r
  | A_height => rect_height r
  end.

(** [e.attributes[axis].value = value] *)
Definition set_axis (e : Rect) (axis : Axis) (value : Z) : Rect :=
  match axis with
  | AxisX => mkRect value (rect_y e) (rect_width e) (rect_height e)
               (rect_traversable e) (rect_in_pattern e)
  | AxisY => mkRect (rect_x e) value (rect_width e) (rect_height e)
               (rect_traversable e) (rect_in_pattern e)
  end.

(** [getBoundingClientRect()].  The box is taken in user space: the
    viewport transformation moves and scales both boxes of a comparison
    alike. *)
Definition getBoundingClientRect (r : Rect) : Box Z :=
  {| b_left := rect_x r;
     b_right := rect_x r + rect_width r;
     b_top := rect_y r;
     b_bottom := rect_y r + rect_height r |}.

Record MoveResult := mkMoveResult {
  mr_store : list Rect;
  difference : Z;
  collided_with : option nat }.

Section Variant.

(** The three points on which the variants differ. *)
Variable collision : Rect -> Rect -> bool.
Variable gap : Z.
Variable skips_pattern : bool.

(** The body of [if (collision(r, e))]: [new_position] when it is stored. *)
Definition new_position (axis : Axis) (vel before : Z) (r e : Rect) : Z :=
  if vel <? 0 then
    let new_position_lt := gap + attr r (attr_of_axis axis) + attr r (sizeName axis) in
    let valid := Z.abs (new_position_lt - before) <=? Z.abs vel in
    if valid then new_position_lt else before
  else if 0 <? vel then
    let new_position_gt := - gap + attr r (attr_of_axis axis) - attr e (sizeName axis) in
    let valid := Z.abs (new_position_gt - before) <=? Z.abs vel in
    if valid then new_position_gt else before
  else before.

(** The loop over the rectangles; there is no [break], so the element [e]
    and [collided_with] are carried through the whole document. *)
Fixpoint scan (movable : nat) (axis : Axis) (vel before : Z)
    (i : nat) (rs : list Rect) (e : Rect) (collided : option nat) : Rect * option nat :=
  match rs with
  | [] => (e, collided)
  | r :: rest =>
      if Nat.eqb i movable then scan movable axis vel before (S i) rest e collided
      else if rect_traversable r then scan movable axis vel before (S i) rest e collided
      else if skips_pattern && rect_in_pattern r then scan movable axis vel before (S i) rest e collided
      else if collision r e then
        scan movable axis vel before (S i) rest
          (set_axis e axis (new_position axis vel before r e)) (Some i)
      else scan movable axis vel before (S i) rest e collided
  end.

(** [move(movable, axis, vel, stopped)]; [None] when [movable] is not an
    element, where reading [e.attributes] throws. *)
Definition move (doc : list Rect) (movable : nat) (axis : Axis) (vel : Z) : option MoveResult :=
  match doc !! movable with
  | None => None
  | Some e =>
      let before := attr e (attr_of_axis axis) in
      let '(e', collided) := scan movable axis vel before 0 doc (set_axis e axis (before + vel)) None in
      let after := attr e' (attr_of_axis axis) in
      Some (mkMoveResult (<[movable := e']> doc) (after - before) collided)
  end.

(** The resting position against [r]: the far edge plus the gap when
    moving towards smaller coordinates, the near edge minus the size of
    the element minus the gap otherwise. *)
Definition resting (axis : Axis) (vel : Z) (r e : Rect) : Z :=
  if vel <? 0 then gap + attr r (attr_of_axis axis) + attr r (sizeName axis)
  else - gap + attr r (attr_of_axis axis) - attr e (sizeName axis).

End Variant.

(** Rectangles used as examples. *)

Definition rect (x y w h : Z) : Rect := mkRect x y w h false false.

(** A player drawn five units into the ground. *)
Definition sunk : list Rect := [rect 0 95 10 10; rect 0 100 200 20].

(** A player two units above its resting position on the ground. *)
Definition falling : list Rect := [rect 0 87 10 10; rect 0 100 200 20].

End Legacy.

Module Part000.
Import Legacy.

(** [collision], with [<=] and [>=]. *)
Definition collision (firstElement secondElement : Rect) : bool :=
  let first := getBoundingClientRect firstElement in
  let second := getBoundingClientRect secondElement in
  (b_left first <=? b_right second) &&
  (b_right first >=? b_left second) &&
  (b_top first <=? b_bottom second) &&
  (b_bottom first >=? b_top second).

(** [move]: [1 + ...] and [-1 + ...] in the resting positions, every
    [rect] that is not traversable scanned. *)
Definition move : list Rect -> nat -> Axis -> Z -> option MoveResult :=
  Legacy.move collision 1 false.

End Part000.

Module Part001.
Import Legacy.

(** [collision], with [<] and [>]. *)
Definition collision (firstElement secondElement : Rect) : bool :=
  let first := getBoundingClientRect firstElement in
  let second := getBoundingClientRect secondElement in
  (b_left first <? b_right second) &&
  (b_right first >? b_left second) &&
  (b_top first <? b_bottom second) &&
  (b_bottom first >? b_top second).

(** [move]: no gap in the resting positions, children of a [pattern] left out. *)
Definition move : list Rect -> nat -> Axis -> Z -> option MoveResult :=
  Legacy.move collision 0 true.

End Part001.

Local Close Scope Z_scope.

(** * The rest of jsgame.script.js: clean-up, input latch, frame timing *)

Module JsGameShell.
Import JsGame.

(** ** svg_clean *)

(** [parseInt] of a numeric attribute whose text is an optional sign, one
    or more digits and an optional fraction: the integer part, towards zero.
    The texts that [parseInt] reads in another way (no digit before the
    point, where it gives [NaN]; an exponent, where it stops) have no
    counterpart in [Elem], whose attributes are numbers. *)
Definition parseInt (value : Q) : Q := inject_Z (Z.quot (Qnum value) (Zpos (Qden value))).

(** The body of the outer loop of [svg_clean]: the four attributes of one
    element are replaced by their integer parts. *)
Definition clean_elem (r : Elem) : Elem :=
  mkElem (parseInt (attr_x r)) (parseInt (attr_y r))
    (parseInt (attr_width r)) (parseInt (attr_height r))
    (traversable r) (in_pattern r) (elevator r)
    (elevator_vel r) (is_on_elevator_previous r).

(** [svg_clean()] *)
Definition svg_clean (d : list Elem) : list Elem := map clean_elem d.

(** ** The input latch *)

(** [let left = false; let right = false; let jumping = false; let fire = false] *)
Record Latch := mkLatch {
  l_left : bool; l_right : bool; l_jumping : bool; l_fire : bool }.

Definition latch0 : Latch := mkLatch false false false false.

(** The body of the [switch (id)] of the two pointer handlers, with the
    value assigned; the second component tells whether
    [event.preventDefault()] was called. *)
Definition pointer (value : bool) (id : string) (l : Latch) : Latch * bool :=
  if String.eqb id "left" then (mkLatch value (l_right l) (l_jumping l) (l_fire l), true)
  else if String.eqb id "right" then (mkLatch (l_left l) value (l_jumping l) (l_fire l), true)
  else if String.eqb id "third" then (mkLatch (l_left l) (l_right l) value (l_fire l), true)
  else (l, false).

(** [onmousedown = ontouchstart]; the call of [open_fullscreen] is not
    modelled. *)
Definition onmousedown (id : string) (l : Latch) : Latch * bool := pointer true id l.

(** [onmouseup = ontouchend] *)
Definition onmouseup (id : string) (l : Latch) : Latch * bool := pointer false id l.

(** The body of the [switch (event.key)] of the two keyboard handlers. *)
Definition key (value : bool) (k : string) (l : Latch) : Latch * bool :=
  if String.eqb k "ArrowLeft" then (mkLatch value (l_right l) (l_jumping l) (l_fire l), true)
  else if String.eqb k "ArrowRight" then (mkLatch (l_left l) value (l_jumping l) (l_fire l), true)
  else if String.eqb k "ArrowUp" then (mkLatch (l_left l) (l_right l) value (l_fire l), true)
  else if String.eqb k " " then (mkLatch (l_left l) (l_right l) (l_jumping l) value, true)
  else (l, false).

Definition onkeydown (k : string) (l : Latch) : Latch * bool := key true k l.

Definition onkeyup (k : string) (l : Latch) : Latch * bool := key false k l.

Inductive Event :=
| MouseDown (id : string)
| MouseUp (id : string)
| KeyDown (k : string)
| KeyUp (k : string).

Definition handle (l : Latch) (ev : Event) : Latch :=
  match ev with
  | MouseDown id => fst (onmousedown id l)
  | MouseUp id => fst (onmouseup id l)
  | KeyDown k => fst (onkeydown k l)
  | KeyUp k => fst (onkeyup k l)
  end.

(** What [main] reads of the latch. *)
Definition read (l : Latch) : Input := mkInput (l_left l) (l_right l) (l_jumping l).

(** ** initialize and gameLoop *)

Definition targetFrameTime : Q := 100.

(** One call of [gameLoop(currentTime)], with the latch as it is read by
    [main] at that moment; the state is [lastTime] and the state of the
    game. *)
Definition gameLoop (m : nat) (st : Q * State) (frame : Q * Input) : Q * State :=
  let '(lastTime, s) := st in
  let '(currentTime, inp) := frame in
  if Qle_bool targetFrameTime (currentTime - lastTime)
  then (currentTime, main m inp s)
  else (lastTime, s).

(** [initialize()] followed by the animation frames [frames]:
    [svg_clean()], [lastTime = 0], then one [gameLoop] per frame.  The
    [setInterval] fallback for a browser without [requestAnimationFrame] is
    not modelled. *)
Definition initialize (m : nat) (d : list Elem) (frames : list (Q * Input)) : Q * State :=
  fold_left (gameLoop m) frames (0, initial (svg_clean d)).

(** The frames at which [gameLoop] calls [main]. *)
Fixpoint ticking (lastTime : Q) (frames : list (Q * Input)) : list (Q * Input) :=
  match frames with
  | [] => []
  | (currentTime, inp) :: rest =>
      if Qle_bool targetFrameTime (currentTime - lastTime)
      then (currentTime, inp) :: ticking currentTime rest
      else ticking lastTime rest
  end.

(** ** Notions used in the statements *)

Definition is_int (q : Q) : Prop := exists z : Z, q == inject_Z z.

Definition integral (e : Elem) : Prop :=
  is_int (attr_x e) /\ is_int (attr_y e) /\ is_int (attr_width e) /\ is_int (attr_height e).

(** Every element has integer attributes, and integer velocity if any. *)
Definition integral_doc (d : list Elem) : Prop :=
  forall j e, d !! j = Some e ->
    integral e /\ (forall v, elevator_vel e = Some v -> is_int v).

(** Consecutive times are at least [targetFrameTime] apart, starting after [last]. *)
Fixpoint spaced (last : Q) (frames : list (Q * Input)) : Prop :=
  match frames with
  | [] => True
  | (t, _) :: rest => last + targetFrameTime <= t /\ spaced t rest
  end.

(** The value is a multiple of one tenth. *)
Definition on_grid (q : Q) : Prop := round1 q == q.

(** Width, height and the three tags of an element. *)
Definition shape_of (e : Elem) : Q * Q * bool * bool * bool :=
  (attr_width e, attr_height e, traversable e, in_pattern e, elevator e).

(** The element at [j] has a velocity, and it is not zero. *)
Definition moving_at (d : list Elem) (j : nat) : Prop :=
  exists v, elevator_vel <$> d !! j = Some (Some v) /\ ~ v == 0.

End JsGameShell.

(** * The elevator loop of the earlier variants *)

Module LegacyElevator.
Import Legacy.

Local Open Scope Z_scope.

Section Variant.

(** [move] of the variant. *)
Variable move : list Rect -> nat -> Axis -> Z -> option MoveResult.

(** The velocity of the iteration: [if (!elevator.elevator_vel)
    elevator.elevator_vel = +1].  The property [elevator_vel] of the
    elements is a finite map from positions to numbers. *)
Definition vel_now (vels : gmap nat Z) (i : nat) : Z :=
  match vels !! i with
  | Some v => if v =? 0 then 1 else v
  | None => 1
  end.

(** [if (elevator.elevator_vel < 0 && is_on_elevator) move(m, "y", ...)]:
    the player is moved with the elevator only when the elevator goes up.
    [None] when [move] throws. *)
Definition elevator_carry (m : nat) (ground : option nat)
    (d : list Rect) (vels : gmap nat Z) (i : nat) : option (list Rect) :=
  let v := vel_now vels i in
  let is_on_elevator := JsGame.option_nat_eqb ground i in
  if (v <? 0) && is_on_elevator then mr_store <$> move d m AxisY v else Some d.

(** One iteration for the elevator at position [i] ([part_001]: the body of
    the loop over [".elevator"]; [part_000]: the block for [#elevator]).
    The callback of the elevator's own move is called whenever the
    difference is zero, and returns without inverting when the obstacle is
    the player. *)
Definition elevator_step (m : nat) (ground : option nat)
    (w : list Rect * gmap nat Z) (i : nat) : option (list Rect * gmap nat Z) :=
  let '(d, vels) := w in
  let v := vel_now vels i in
  let vels1 := <[i := v]> vels in
  match elevator_carry m ground d vels i with
  | None => None
  | Some d1 =>
      match move d1 i AxisY v with
      | None => None
      | Some r =>
          if difference r =? 0 then
            if bool_decide (collided_with r = Some m) then Some (mr_store r, vels1)
            else Some (mr_store r, <[i := - v]> vels1)
          else Some (mr_store r, vels1)
      end
  end.

End Variant.

(** An elevator of [part_001] one unit above the player's head, and one on
    which the player stands. *)
Definition squeeze : list Rect := [rect 0 89 10 10; rect 0 100 200 20; rect 0 83 10 5].

Definition carrying : list Rect := [rect 0 89 10 10; rect 0 100 50 5].

End LegacyElevator.

(** * The variant kept after the current script in jsgame.script.js

    The second script of the file (lines 488 to 713): [collision] is strict,
    [move] has no test of validity, no [break], and scans every [rect]. *)

Module Older.
Import Legacy.

Local Open Scope Z_scope.

Definition collision (firstElement secondElement : Rect) : bool :=
  let first := getBoundingClientRect firstElement in
  let second := getBoundingClientRect secondElement in
  (b_left first <? b_right second) &&
  (b_right first >? b_left second) &&
  (b_top first <? b_bottom second) &&
  (b_bottom first >? b_top second).

(** The coordinate written inside [if (collision(r, e))]; a velocity of zero
    takes the [else] branch. *)
Definition resolved (axis : Axis) (vel : Z) (r e : Rect) : Z :=
  let size := if vel <? 0 then attr r (sizeName axis) else 0 in
  let edge := attr r (attr_of_axis axis) + size in
  if vel <? 0 then 1 + edge
  else -1 + attr r (attr_of_axis axis) - attr e (sizeName axis).

Fixpoint scan (movable : nat) (axis : Axis) (vel : Z)
    (i : nat) (rs : list Rect) (e : Rect) (collided : option nat) : Rect * option nat :=
  match rs with
  | [] => (e, collided)
  | r :: rest =>
      if Nat.eqb i movable then scan movable axis vel (S i) rest e collided
      else if collision r e then
        scan movable axis vel (S i) rest (set_axis e axis (resolved axis vel r e)) (Some i)
      else scan movable axis vel (S i) rest e collided
  end.

(** [move(movable, axis, vel, stopped)]; [None] when [movable] is not an
    element. *)
Definition move (doc : list Rect) (movable : nat) (axis : Axis) (vel : Z) : option MoveResult :=
  match doc !! movable with
  | None => None
  | Some e =>
      let before := attr e (attr_of_axis axis) in
      let '(e', collided) := scan movable axis vel 0 doc (set_axis e axis (before + vel)) None in
      let after := attr e' (attr_of_axis axis) in
      Some (mkMoveResult (<[movable := e']> doc) (after - before) collided)
  end.


End Older.

(** * Facts *)

(** ** Comparisons on rationals *)



(** Closed comparisons between rational constants, by evaluation. *)
Ltac qeval :=
  vm_compute;
  first [ reflexivity
        | discriminate
        | let H := fresh in intro H; discriminate H
        | let H := fresh in intro H; apply H; reflexivity ].

(** * Facts about jsgame.script.js *)

Module JsGameSpec.
Import JsGame JsGameShell.

(** ** The collision predicate *)

Lemma collision_true_iff (a b : Elem) :
  collision (Some a) (Some b) = true <->
  b_left (getSVGRect a) <= b_right (getSVGRect b) + tolerance /\
  b_left (getSVGRect b) - tolerance <= b_right (getSVGRect a) /\
  b_top (getSVGRect a) <= b_bottom (getSVGRect b) + tolerance /\
  b_top (getSVGRect b) - tolerance <= b_bottom (getSVGRect a).
Proof.
  unfold collision. rewrite !andb_true_iff, !Qle_bool_iff. tauto.
Qed.

(** C7.  Two boxes that touch exactly on one axis (one's right edge is the
    other's left edge, or one's bottom edge is the other's top edge) and
    overlap on the other axis collide. *)
Theorem collision_touching (a b : Elem) :
  valid_box a -> valid_box b ->
  (touching_x a b /\ overlapping_y a b) \/ (touching_y a b /\ overlapping_x a b) ->
  collision (Some a) (Some b) = true.
Proof.
  intros [Haw Hah] [Hbw Hbh] H.
  apply collision_true_iff.
  unfold touching_x, touching_y, overlapping_x, overlapping_y, tolerance in *.
  cbn [getSVGRect b_left b_right b_top b_bottom] in *.
  destruct H as [[[T|T] [O1 O2]] | [[T|T] [O1 O2]]]; repeat split; lra.
Qed.

Lemma collision_touching_witness :
  collision (Some (box 0 0 10 10)) (Some (box 10 5 10 10)) = true.
Proof.
  apply collision_touching.
  - split; qeval.
  - split; qeval.
  - left. split.
    + left. qeval.
    + split; qeval.
Defined.

(** Between integers the tolerance decides nothing: a sum or a difference
    with 0.1 lies strictly between two integers. *)
Lemma is_int_sum (x w : Q) : is_int x -> is_int w -> is_int (x + w).
Proof.
  intros [a Ha] [b Hb]. exists (a + b)%Z. rewrite inject_Z_plus, Ha, Hb. reflexivity.
Qed.

Lemma Qle_bool_tolerance_right (x y : Q) :
  is_int x -> is_int y -> Qle_bool x (y + tolerance) = Qle_bool x y.
Proof.
  intros [a Ha] [b Hb]. apply eq_true_iff_eq. rewrite !Qle_bool_iff, Ha, Hb.
  unfold Qle, Qplus, inject_Z, tolerance. cbn. lia.
Qed.

Lemma Qle_bool_tolerance_left (x y : Q) :
  is_int x -> is_int y -> Qle_bool (x - tolerance) y = Qle_bool x y.
Proof.
  intros [a Ha] [b Hb]. apply eq_true_iff_eq. rewrite !Qle_bool_iff, Ha, Hb.
  unfold Qle, Qminus, Qplus, Qopp, inject_Z, tolerance. cbn. lia.
Qed.

(** C8.  For two elements whose coordinates and sizes are integers, as
    [svg_clean] and the integer velocities of the game keep them,
    [collision] does not depend on the order of its arguments: each of the
    four comparisons with the tolerance is the comparison without it, and
    the four comparisons of one order are those of the other. *)
Theorem collision_symmetric_on_integers (a b : Elem) :
  integral a -> integral b ->
  collision (Some a) (Some b) = collision (Some b) (Some a).
Proof.
  intros (Hax & Hay & Haw & Hah) (Hbx & Hby & Hbw & Hbh).
  unfold collision. cbn [getSVGRect b_left b_right b_top b_bottom].
  rewrite !Qle_bool_tolerance_right, !Qle_bool_tolerance_left
    by (assumption || (apply is_int_sum; assumption)).
  repeat match goal with |- context [Qle_bool ?x ?y] =>
    generalize (Qle_bool x y); intro end.
  repeat match goal with x : bool |- _ => destruct x end; reflexivity.
Qed.

Lemma collision_symmetric_on_integers_witness :
  collision (Some (box 0 0 10 10)) (Some (box 10 5 10 10)) =
  collision (Some (box 10 5 10 10)) (Some (box 0 0 10 10)).
Proof.
  apply collision_symmetric_on_integers.
  - repeat split; eexists; reflexivity.
  - repeat split; eexists; reflexivity.
Defined.

(** In binary64 the order of the arguments can decide: [0.3 + 0.1] is
    rounded to the number written [0.4], so the box that starts at 0.4
    passes [first.left <= second.right + tolerance] against the box that
    ends at 0.3; [0.4 - 0.1] is rounded to a number above the one written
    [0.3], so the box that ends at 0.3 fails
    [first.right >= second.left - tolerance] against the box that starts at
    0.4. *)
Lemma collision_binary64_order :
  JsGameFloat.collision (Some JsGameFloat.shifted) (Some JsGameFloat.narrow) = true /\
  JsGameFloat.collision (Some JsGameFloat.narrow) (Some JsGameFloat.shifted) = false.
Proof. split; vm_compute; reflexivity. Qed.

(** ** The mover *)

Lemma setAttrValue_twice e axis a b :
  setAttrValue (setAttrValue e axis a) axis b = setAttrValue e axis b.
Proof. destruct axis; reflexivity. Qed.

Lemma scan_cons movable axis vel before i r rest e :
  scan movable axis vel before i (r :: rest) e =
  if blocks movable e i r
  then (setAttrValue e axis (new_position axis vel before r e), Some i)
  else scan movable axis vel before (S i) rest e.
Proof.
  cbn [scan]. unfold blocks.
  destruct (Nat.eqb i movable), (traversable r), (in_pattern r),
    (collision (Some r) (Some e)); reflexivity.
Qed.

Lemma scan_app movable axis vel before pre : forall i rest e,
  (forall k r, pre !! k = Some r -> blocks movable e (i + k) r = false) ->
  scan movable axis vel before i (pre ++ rest) e =
  scan movable axis vel before (i + length pre) rest e.
Proof.
  induction pre as [|p pre IH]; intros i rest e Hpre.
  - cbn [app length]. rewrite Nat.add_0_r. reflexivity.
  - rewrite <- app_comm_cons, scan_cons.
    rewrite <- (Nat.add_0_r i) at 1. rewrite (Hpre 0%nat p eq_refl).
    rewrite IH.
    + cbn [length]. f_equal. lia.
    + intros k r Hk. replace (S i + k)%nat with (i + S k)%nat by lia.
      apply Hpre. exact Hk.
Qed.


(** The scan either finds nothing, or stops at the first blocking
    rectangle of the document. *)
Lemma scan_cases movable axis vel before rs : forall i e,
  scan movable axis vel before i rs e = (e, None) \/
  exists k r, rs !! k = Some r /\ blocks movable e (i + k) r = true /\
    scan movable axis vel before i rs e =
      (setAttrValue e axis (new_position axis vel before r e), Some (i + k)%nat).
Proof.
  induction rs as [|r rs IH]; intros i e.
  - left. reflexivity.
  - rewrite scan_cons. destruct (blocks movable e i r) eqn:B.
    + right. exists 0%nat, r. rewrite Nat.add_0_r. auto.
    + destruct (IH (S i) e) as [H | (k & r' & Hk & Hb & H)].
      * left. exact H.
      * right. exists (S k), r'. replace (i + S k)%nat with (S i + k)%nat by lia. auto.
Qed.

(** C2.  When [r] is the first rectangle of the document that blocks the
    element at its tentative position, [move] records [r] and stores the
    resting position computed from [r]; the rectangles after [r] in the
    document ([post]) have no part in the result. *)
Theorem move_first_collision_only
    (pre post : list Elem) (r e : Elem) (movable : nat) (axis : Axis) (vel : Q) :
  (pre ++ r :: post) !! movable = Some e ->
  (forall k r', pre !! k = Some r' -> blocks movable (tentative e axis vel) k r' = false) ->
  blocks movable (tentative e axis vel) (length pre) r = true ->
  let res := move (pre ++ r :: post) movable axis vel in
  let resting := new_position axis vel (getAttrValue e (attr_of_axis axis)) r (tentative e axis vel) in
  collided_with res = Some (length pre) /\
  mr_store res = <[movable := setAttrValue e axis resting]> (pre ++ r :: post) /\
  difference res = round1 resting - getAttrValue e (attr_of_axis axis).
Proof.
  intros He Hpre Hr res resting. subst res resting.
  unfold move. rewrite He.
  fold (tentative e axis vel).
  rewrite scan_app by exact Hpre.
  rewrite scan_cons. cbn [Nat.add]. rewrite Hr.
  cbn [mr_store collided_with difference].
  unfold tentative at 1 3. rewrite setAttrValue_twice.
  repeat split. destruct axis; reflexivity.
Qed.

Lemma move_first_collision_only_witness :
  collided_with (move [player0; ground0; slab0] 0 AxisY 3) = Some 1%nat.
Proof.
  refine (proj1 (move_first_collision_only [player0] [slab0] ground0 player0
                   0 AxisY 3 eq_refl _ _)).
  - intros [|k] r' H; [reflexivity | discriminate H].
  - vm_compute. reflexivity.
Defined.

Lemma same_except_setAttrValue axis e q : same_except axis e (setAttrValue e axis q).
Proof. destruct axis; repeat split. Qed.

(** The document after [move] is the document before it with one
    coordinate of the moved element overwritten. *)
Lemma move_store (d : list Elem) (movable : nat) (axis : Axis) (vel : Q) :
  exists q, mr_store (move d movable axis vel) =
            alter (fun e => setAttrValue e axis q) movable d.
Proof.
  unfold move. destruct (d !! movable) as [e|] eqn:He.
  - fold (tentative e axis vel).
    destruct (scan_cases movable axis vel (getAttrValue e (attr_of_axis axis)) d 0
                (tentative e axis vel)) as [H | (k & r & _ & _ & H)]; rewrite H.
    + exists (getAttrValue e (attr_of_axis axis) + vel).
      cbn [mr_store]. rewrite list_insert_alter.
      apply list_eq. intros j.
      rewrite !list_lookup_alter. case_decide; [subst j; rewrite He|]; reflexivity.
    + eexists. cbn [mr_store]. unfold tentative. rewrite setAttrValue_twice.
      apply list_eq. intros j. rewrite list_insert_alter.
      rewrite !list_lookup_alter. case_decide; [subst j; rewrite He|]; reflexivity.
  - exists 0. cbn [mr_store]. symmetry.
    apply list_eq. intros j. rewrite list_lookup_alter.
    case_decide; [subst j; rewrite He|]; reflexivity.
Qed.

(** C10.  [move] writes one attribute: the document keeps its length, every
    other element is as it was, and the moved element keeps its coordinate on
    the other axis, its width and height (and its tags and properties). *)
Theorem move_frame (d : list Elem) (movable : nat) (axis : Axis) (vel : Q) :
  let d' := mr_store (move d movable axis vel) in
  length d' = length d /\
  (forall j, j <> movable -> d' !! j = d !! j) /\
  (forall e, d !! movable = Some e ->
     exists e', d' !! movable = Some e' /\ same_except axis e e').
Proof.
  cbv zeta. destruct (move_store d movable axis vel) as [q ->].
  split; [apply length_alter|]. split.
  - intros j Hj. apply list_lookup_alter_ne. congruence.
  - intros e He. exists (setAttrValue e axis q). split.
    + rewrite list_lookup_alter_eq, He. reflexivity.
    + apply same_except_setAttrValue.
Qed.

(** A property of elements that [setAttrValue] does not change is not
    changed by [move], at any position of the document. *)
Lemma move_fmap {A} (f : Elem -> A) (d : list Elem) (movable : nat) (axis : Axis) (vel : Q) :
  (forall e q, f (setAttrValue e axis q) = f e) ->
  forall j, f <$> mr_store (move d movable axis vel) !! j = f <$> d !! j.
Proof.
  intros Hf j. destruct (move_store d movable axis vel) as [q ->].
  rewrite list_lookup_alter. case_decide; [subst j|reflexivity].
  destruct (d !! movable) as [e|]; [|reflexivity].
  change (Some (f (setAttrValue e axis q)) = Some (f e)). rewrite Hf. reflexivity.
Qed.

Lemma elevator_vel_setAttrValue axis e q : elevator_vel (setAttrValue e axis q) = elevator_vel e.
Proof. destruct axis; reflexivity. Qed.

Lemma elevator_setAttrValue axis e q : elevator (setAttrValue e axis q) = elevator e.
Proof. destruct axis; reflexivity. Qed.


(** ** The elevators *)

(** The velocity of an iteration is never zero. *)
Lemma elevator_vel_now_nonzero el : ~ elevator_vel_now el == 0.
Proof.
  unfold elevator_vel_now, vel_unset. destruct (elevator_vel el) as [q|]; cbn.
  - destruct (Qeq_bool q 0) eqn:E.
    + discriminate.
    + apply Qeq_bool_neq. exact E.
  - discriminate.
Qed.

(** The document at the elevator's own move differs from the document at the
    head of the iteration in coordinates only, and in the state of [i]. *)
Lemma elevator_carry_fmap {A} (f : Elem -> A) m ground d i el :
  (forall e q, f (setAttrValue e AxisY q) = f e) ->
  forall j, f <$> elevator_carry m ground d i el !! j = f <$> elevator_enter ground d i el !! j.
Proof.
  intros Hf j. unfold elevator_carry.
  destruct (option_nat_eqb ground i); [|reflexivity].
  apply move_fmap. exact Hf.
Qed.

Lemma elevator_move_fmap {A} (f : Elem -> A) m ground d i el :
  (forall e q, f (setAttrValue e AxisY q) = f e) ->
  forall j, f <$> mr_store (elevator_move m ground d i el) !! j =
            f <$> elevator_enter ground d i el !! j.
Proof.
  intros Hf j. unfold elevator_move.
  rewrite move_fmap by exact Hf. apply elevator_carry_fmap. exact Hf.
Qed.

(** The velocity of elevator [i] after its iteration. *)
Lemma elevator_step_vel_eq m ground d i el :
  d !! i = Some el ->
  elevator_vel <$> elevator_step m ground d i !! i =
  Some (Some (match stopped_arg (elevator_move m ground d i el) with
              | Some _ => - elevator_vel_now el
              | None => elevator_vel_now el
              end)).
Proof.
  intros He. unfold elevator_step. rewrite He.
  assert (Hi : (i < length d)%nat) by (eapply lookup_lt_Some; exact He).
  assert (Hm : elevator_vel <$> mr_store (elevator_move m ground d i el) !! i
               = Some (Some (elevator_vel_now el))).
  { rewrite (elevator_move_fmap elevator_vel) by (intros; apply elevator_vel_setAttrValue).
    unfold elevator_enter. rewrite list_lookup_insert_eq by exact Hi. reflexivity. }
  destruct (stopped_arg (elevator_move m ground d i el)).
  - rewrite list_lookup_alter_eq.
    destruct (mr_store (elevator_move m ground d i el) !! i) as [e'|]; [|discriminate].
    cbn in Hm |- *. injection Hm as ->. reflexivity.
  - exact Hm.
Qed.

Lemma elevator_step_vel_ne m ground d i j :
  j <> i -> elevator_vel <$> elevator_step m ground d i !! j = elevator_vel <$> d !! j.
Proof.
  intros Hj. unfold elevator_step. destruct (d !! i) as [el|] eqn:He; [|reflexivity].
  assert (Hm : elevator_vel <$> mr_store (elevator_move m ground d i el) !! j
               = elevator_vel <$> d !! j).
  { rewrite (elevator_move_fmap elevator_vel) by (intros; apply elevator_vel_setAttrValue).
    unfold elevator_enter. rewrite list_lookup_insert_ne by congruence. reflexivity. }
  destruct (stopped_arg (elevator_move m ground d i el)); [|exact Hm].
  rewrite list_lookup_alter_ne by congruence. exact Hm.
Qed.

Lemma elevator_step_flag m ground d i j :
  elevator <$> elevator_step m ground d i !! j = elevator <$> d !! j.
Proof.
  unfold elevator_step. destruct (d !! i) as [el|] eqn:He; [|reflexivity].
  assert (Hm : elevator <$> mr_store (elevator_move m ground d i el) !! j
               = elevator <$> d !! j).
  { rewrite (elevator_move_fmap elevator) by (intros; apply elevator_setAttrValue).
    unfold elevator_enter. rewrite list_lookup_insert.
    destruct (decide (i = j /\ (i < length d)%nat)) as [[-> _]|]; [|reflexivity].
    rewrite He. reflexivity. }
  destruct (stopped_arg (elevator_move m ground d i el)); [|exact Hm].
  rewrite list_lookup_alter. case_decide; [subst j|exact Hm].
  rewrite <- Hm. destruct (mr_store (elevator_move m ground d i el) !! i); reflexivity.
Qed.

(** The loop visits the positions of the elements tagged [elevator], each
    once, in document order. *)
Lemma elevator_indices_spec d : forall i0 j,
  j ∈ elevator_indices i0 d <->
  exists k el, j = (i0 + k)%nat /\ d !! k = Some el /\ elevator el = true.
Proof.
  induction d as [|e d IH]; intros i0 j; cbn [elevator_indices].
  - split; [intros H; inversion H | intros (k & el & _ & H & _); discriminate H].
  - assert (Htail : j ∈ elevator_indices (S i0) d <->
                    exists k el, j = (i0 + S k)%nat /\ d !! k = Some el /\ elevator el = true).
    { rewrite IH. split; intros (k & el & Hj & H); exists k, el; split; try exact H; lia. }
    destruct (elevator e) eqn:Ee.
    + rewrite elem_of_cons, Htail. split.
      * intros [-> | (k & el & Hj & Hk & Hel)].
        -- exists 0%nat, e. split; [lia | auto].
        -- exists (S k), el. auto.
      * intros ([|k] & el & Hj & Hk & Hel).
        -- left. lia.
        -- right. exists k, el. auto.
    + rewrite Htail. split.
      * intros (k & el & Hj & Hk & Hel). exists (S k), el. auto.
      * intros ([|k] & el & Hj & Hk & Hel).
        -- cbn in Hk. injection Hk as ->. congruence.
        -- exists k, el. auto.
Qed.

Lemma elevator_indices_NoDup d : forall i0, NoDup (elevator_indices i0 d).
Proof.
  induction d as [|e d IH]; intros i0; cbn [elevator_indices].
  - constructor.
  - destruct (elevator e); [|apply IH].
    constructor; [|apply IH].
    rewrite elevator_indices_spec. intros (k & el & Hj & _). lia.
Qed.

Lemma elevators_from_vel_notin m ground l : forall d j,
  j ∉ l -> elevator_vel <$> elevators_from m ground l d !! j = elevator_vel <$> d !! j.
Proof.
  induction l as [|i l IH]; intros d j Hj; [reflexivity|].
  cbn [elevators_from fold_left]. fold (elevators_from m ground l (elevator_step m ground d i)).
  rewrite not_elem_of_cons in Hj. destruct Hj as [Hji Hjl].
  rewrite IH by exact Hjl. apply elevator_step_vel_ne. exact Hji.
Qed.

Lemma elevators_from_flag m ground l : forall d j,
  elevator <$> elevators_from m ground l d !! j = elevator <$> d !! j.
Proof.
  induction l as [|i l IH]; intros d j; [reflexivity|].
  cbn [elevators_from fold_left]. fold (elevators_from m ground l (elevator_step m ground d i)).
  rewrite IH. apply elevator_step_flag.
Qed.

(** *** The speed of an elevator *)

Lemma elevator_vel_now_unit el :
  unset_or_unit (elevator_vel el) ->
  unit_vel (Some (elevator_vel_now el)) /\ unit_vel (Some (- elevator_vel_now el)).
Proof.
  unfold elevator_vel_now.
  intros [-> | [-> | ->]]; cbn; split; (left; reflexivity) || (right; reflexivity).
Qed.

Lemma elevator_step_unit_at m ground d i :
  vel_invariant d -> is_Some (d !! i) -> unit_at (elevator_step m ground d i) i.
Proof.
  intros Hinv [el He]. unfold unit_at.
  rewrite (elevator_step_vel_eq m ground d i el He).
  destruct (elevator_vel_now_unit el) as [Hp Hn].
  { apply (Hinv i). rewrite He. reflexivity. }
  eexists. split; [reflexivity|].
  destruct (stopped_arg (elevator_move m ground d i el)); assumption.
Qed.

Lemma elevator_step_vel_invariant m ground d i :
  vel_invariant d -> vel_invariant (elevator_step m ground d i).
Proof.
  intros Hinv j v Hv. destruct (decide (j = i)) as [->|Hj].
  - destruct (d !! i) as [el|] eqn:He.
    + destruct (elevator_step_unit_at m ground d i Hinv) as (v' & Hv' & Hu); [eauto|].
      rewrite Hv' in Hv. injection Hv as <-. right. exact Hu.
    + unfold elevator_step in Hv. rewrite He in Hv. rewrite He in Hv. discriminate.
  - rewrite elevator_step_vel_ne in Hv by exact Hj. eapply Hinv. exact Hv.
Qed.

Lemma elevator_step_unit_keep m ground d i j :
  vel_invariant d -> unit_at d j -> unit_at (elevator_step m ground d i) j.
Proof.
  intros Hinv (v & Hv & Hu). destruct (decide (j = i)) as [->|Hj].
  - apply elevator_step_unit_at; [exact Hinv|].
    destruct (d !! i); [eauto | discriminate].
  - exists v. rewrite elevator_step_vel_ne by exact Hj. auto.
Qed.

Lemma elevators_from_unit m ground l : forall d j,
  vel_invariant d ->
  (j ∈ l /\ is_Some (d !! j)) \/ unit_at d j ->
  unit_at (elevators_from m ground l d) j.
Proof.
  induction l as [|i l IH]; intros d j Hinv H.
  - destruct H as [[H _] | H]; [inversion H | exact H].
  - cbn [elevators_from fold_left]. fold (elevators_from m ground l (elevator_step m ground d i)).
    apply IH; [apply elevator_step_vel_invariant; exact Hinv|].
    destruct H as [[Hin Hsome] | Hu].
    + apply elem_of_cons in Hin. destruct Hin as [-> | Hin].
      * right. apply elevator_step_unit_at; assumption.
      * left. split; [exact Hin|].
        pose proof (elevator_step_flag m ground d i j) as Hf.
        destruct Hsome as [e He]. rewrite He in Hf.
        destruct (elevator_step m ground d i !! j); [eauto | discriminate].
    + right. apply elevator_step_unit_keep; assumption.
Qed.

Lemma elevators_from_vel_invariant m ground l : forall d,
  vel_invariant d -> vel_invariant (elevators_from m ground l d).
Proof.
  induction l as [|i l IH]; intros d Hinv; [exact Hinv|].
  cbn [elevators_from fold_left]. apply IH. apply elevator_step_vel_invariant. exact Hinv.
Qed.

(** ** One tick *)

(** After the elevator loop [main] only calls [move]: a property of elements
    that [setAttrValue] does not change is, at the end of the tick, as the
    elevator loop left it. *)
Lemma main_fmap {A} (f : Elem -> A) m inp s :
  (forall axis e q, f (setAttrValue e axis q) = f e) ->
  forall j, f <$> doc (main m inp s) !! j = f <$> t_after_elevators (tick m inp s) !! j.
Proof.
  intros Hf j. unfold main, tick. cbn [t_next doc t_after_elevators].
  rewrite move_fmap by apply Hf.
  match goal with |- context [if ?c then mr_store ?x else ?y] => destruct c end;
    [apply move_fmap, Hf | reflexivity].
Qed.

Lemma tick_after_elevators m inp s :
  t_after_elevators (tick m inp s) =
  elevators_from m (t_ground (tick m inp s))
    (elevator_indices 0 (mr_store (move (doc s) m AxisY 3)))
    (mr_store (move (doc s) m AxisY 3)).
Proof. reflexivity. Qed.

Lemma move_vel_invariant d movable axis vel :
  vel_invariant d -> vel_invariant (mr_store (move d movable axis vel)).
Proof.
  intros Hinv j v Hv.
  rewrite (move_fmap elevator_vel) in Hv by (intros; apply elevator_vel_setAttrValue).
  eapply Hinv. exact Hv.
Qed.

(** After any tick every element tagged [elevator] has velocity +1 or -1. *)
Lemma main_unit_vel m inp s :
  vel_invariant (doc s) ->
  vel_invariant (doc (main m inp s)) /\
  forall j el, doc (main m inp s) !! j = Some el -> elevator el = true ->
               unit_vel (elevator_vel el).
Proof.
  intros Hinv.
  set (dg := mr_store (move (doc s) m AxisY 3)).
  assert (Hg : vel_invariant dg) by (apply move_vel_invariant; exact Hinv).
  split.
  - intros j v Hv.
    rewrite (main_fmap elevator_vel) in Hv by (intros; apply elevator_vel_setAttrValue).
    rewrite tick_after_elevators in Hv.
    eapply elevators_from_vel_invariant; [exact Hg | exact Hv].
  - intros j el Hj Hel.
    pose proof (main_fmap elevator m inp s
                  (fun axis e q => elevator_setAttrValue axis e q) j) as Hflag.
    rewrite Hj, tick_after_elevators, elevators_from_flag in Hflag. fold dg in Hflag.
    destruct (dg !! j) as [eg|] eqn:Hdg; [|discriminate].
    cbn in Hflag. injection Hflag as Hflag.
    assert (Hin : j ∈ elevator_indices 0 dg).
    { apply elevator_indices_spec. exists j, eg. repeat split; [exact Hdg | congruence]. }
    destruct (elevators_from_unit m (t_ground (tick m inp s)) (elevator_indices 0 dg) dg j Hg)
      as (v & Hv & Hu).
    { left. split; [exact Hin | rewrite Hdg; eauto]. }
    fold dg in Hv. rewrite <- tick_after_elevators in Hv.
    rewrite <- (main_fmap elevator_vel) in Hv by (intros; apply elevator_vel_setAttrValue).
    rewrite Hj in Hv. cbn in Hv. injection Hv as <-. exact Hu.
Qed.

(** C9.  When the page is loaded no element has [elevator_vel]; after one
    or more ticks, whatever the inputs, the [elevator_vel] of every element
    tagged [elevator] is exactly +1 or -1. *)
Theorem elevator_vel_is_unit (m : nat) (d : list Elem) (inps : list Input) :
  (forall j el, d !! j = Some el -> elevator_vel el = None) ->
  inps <> [] ->
  forall j el, doc (run m inps (initial d)) !! j = Some el -> elevator el = true ->
    elevator_vel el = Some 1 \/ elevator_vel el = Some (-1).
Proof.
  intros Hd.
  assert (Hinv : vel_invariant (doc (initial d))).
  { intros j v Hv. cbn [initial doc] in Hv.
    destruct (d !! j) as [e|] eqn:He; [|discriminate].
    cbn in Hv. injection Hv as <-. left. eapply Hd. exact He. }
  revert Hinv. generalize (initial d) as s.
  induction inps as [|inp rest IH]; intros s Hinv Hne; [congruence|].
  destruct (main_unit_vel m inp s Hinv) as [Hinv' Hunit].
  cbn [run]. destruct rest as [|inp' rest'].
  - exact Hunit.
  - apply IH; [exact Hinv' | discriminate].
Qed.

Lemma elevator_vel_is_unit_witness :
  exists el, doc (run 0 [idle] (initial level0)) !! 2%nat = Some el /\
             (elevator_vel el = Some 1 \/ elevator_vel el = Some (-1)).
Proof.
  eexists. split.
  - vm_compute. reflexivity.
  - apply (elevator_vel_is_unit 0 level0 [idle]) with (j := 2%nat).
    + intros j el H.
      do 3 (destruct j as [|j]; [injection H as <-; reflexivity|]). discriminate H.
    + discriminate.
    + vm_compute. reflexivity.
    + reflexivity.
Defined.

(** C3.  In a tick, let [i] be an elevator, [d_i] the document when the loop
    reaches it and [el] the element.  If the elevator's own move returns a
    zero difference with an obstacle [b] recorded, then at the end of the
    tick its [elevator_vel] is the negation of the velocity it was moved
    with, and that is the velocity of its next iteration; [b] may be the
    player or any other rectangle. *)
Theorem elevator_blocked_inverts
    (m : nat) (inp : Input) (s : State) (pre post : list nat) (i : nat) (el : Elem) (b : nat) :
  let ground := t_ground (tick m inp s) in
  let dg := mr_store (move (doc s) m AxisY 3) in
  let d_i := elevators_from m ground pre dg in
  let own := elevator_move m ground d_i i el in
  elevator_indices 0 dg = pre ++ i :: post ->
  d_i !! i = Some el ->
  difference own == 0 ->
  collided_with own = Some b ->
  exists el', doc (main m inp s) !! i = Some el' /\
    elevator_vel el' = Some (- elevator_vel_now el) /\
    elevator_vel_now el' = - elevator_vel_now el.
Proof.
  intros ground dg d_i own Hidx He Hdiff Hb.
  assert (Hstop : stopped_arg own = Some b).
  { unfold stopped_arg. apply Qeq_bool_iff in Hdiff. rewrite Hdiff. exact Hb. }
  assert (Hnotin : i ∉ post).
  { pose proof (elevator_indices_NoDup dg 0) as Hnd. rewrite Hidx in Hnd.
    apply NoDup_app in Hnd. destruct Hnd as (_ & _ & Hnd).
    apply NoDup_cons in Hnd. tauto. }
  assert (Hvel : elevator_vel <$> doc (main m inp s) !! i = Some (Some (- elevator_vel_now el))).
  { rewrite (main_fmap elevator_vel) by (intros; apply elevator_vel_setAttrValue).
    rewrite tick_after_elevators. fold dg ground. rewrite Hidx.
    unfold elevators_from. rewrite fold_left_app. cbn [fold_left].
    fold (elevators_from m ground pre dg). fold d_i.
    fold (elevators_from m ground post (elevator_step m ground d_i i)).
    rewrite elevators_from_vel_notin by exact Hnotin.
    rewrite (elevator_step_vel_eq m ground d_i i el He).
    fold own. rewrite Hstop. reflexivity. }
  destruct (doc (main m inp s) !! i) as [el'|]; [|discriminate].
  cbn in Hvel. injection Hvel as Hvel.
  exists el'. split; [reflexivity|]. split; [exact Hvel|].
  unfold elevator_vel_now at 1. rewrite Hvel. cbn [vel_unset default].
  destruct (Qeq_bool (- elevator_vel_now el) 0) eqn:E; [|reflexivity].
  exfalso. apply Qeq_bool_iff in E. apply (elevator_vel_now_nonzero el). lra.
Qed.

Lemma elevator_blocked_inverts_witness :
  exists el', doc (main 0 idle (initial level0)) !! 2%nat = Some el' /\
    elevator_vel el' = Some (- elevator_vel_now lift0) /\
    elevator_vel_now el' = - elevator_vel_now lift0.
Proof.
  apply (elevator_blocked_inverts 0 idle (initial level0) [] [] 2 lift0 0).
  - vm_compute. reflexivity.
  - vm_compute. reflexivity.
  - vm_compute. reflexivity.
  - vm_compute. reflexivity.
Defined.


(** *** The player on an elevator *)








(** ** The jump counter *)

Local Open Scope Z_scope.

Lemma tick_triggered_iff m inp s :
  t_triggered (tick m inp s) = true <->
  jumping inp = true /\ jumping_previous s = false /\ t_ground (tick m inp s) <> None.
Proof.
  unfold tick. cbn [t_triggered t_ground].
  rewrite !andb_true_iff, negb_true_iff, bool_decide_eq_true. tauto.
Qed.

Lemma tick_counter_set m inp s :
  t_counter_set (tick m inp s) = if t_triggered (tick m inp s) then 15 else jump_counter s.
Proof. reflexivity. Qed.

Lemma tick_counter_dec m inp s :
  t_counter_dec (tick m inp s) =
  if 0 <? t_counter_set (tick m inp s) then t_counter_set (tick m inp s) - 1
  else t_counter_set (tick m inp s).
Proof. reflexivity. Qed.

Lemma tick_after_jump m inp s :
  t_after_jump (tick m inp s) =
  if 0 <? t_counter_set (tick m inp s)
  then mr_store (move (t_after_elevators (tick m inp s)) m AxisY (-5)%Q)
  else t_after_elevators (tick m inp s).
Proof. reflexivity. Qed.

Lemma tick_roof_hit m inp s :
  t_roof_hit (tick m inp s) =
  Qeq_bool (t_y_difference (tick m inp s)) 0 && (0 <? t_counter_dec (tick m inp s)).
Proof. reflexivity. Qed.

Lemma main_jump_counter m inp s :
  jump_counter (main m inp s) =
  if t_roof_hit (tick m inp s) then 0 else t_counter_dec (tick m inp s).
Proof. reflexivity. Qed.

(** A run of ticks without trigger and without roof hit counts down by one
    per tick, as long as the counter lasts. *)
Lemma quiet_countdown m : forall inps s,
  quiet m inps s = true ->
  Z.of_nat (length inps) <= jump_counter s ->
  jump_counter (run m inps s) = jump_counter s - Z.of_nat (length inps).
Proof.
  induction inps as [|inp rest IH]; intros s Hq Hlen.
  - cbn. lia.
  - cbn [quiet] in Hq. rewrite !andb_true_iff, !negb_true_iff in Hq.
    destruct Hq as [[Htrig Hroof] Hq].
    cbn [length] in Hlen. cbn [run length].
    assert (Hstep : jump_counter (main m inp s) = jump_counter s - 1).
    { rewrite main_jump_counter, Hroof, tick_counter_dec, tick_counter_set, Htrig.
      destruct (Z.ltb_spec 0 (jump_counter s)); lia. }
    rewrite IH; [lia | exact Hq | lia].
Qed.

(** The counter stays between 0 and 14 from tick to tick, so it has a value
    in that range at the start of every tick of a run from the loaded page. *)
Lemma main_jump_counter_range m inp s :
  0 <= jump_counter s <= 14 -> 0 <= jump_counter (main m inp s) <= 14.
Proof.
  intros Hs. rewrite main_jump_counter, tick_counter_dec, tick_counter_set.
  destruct (t_roof_hit (tick m inp s)); [lia|].
  destruct (t_triggered (tick m inp s)); cbn; [lia|].
  destruct (Z.ltb_spec 0 (jump_counter s)); lia.
Qed.

Lemma run_jump_counter_range m : forall inps s,
  0 <= jump_counter s <= 14 -> 0 <= jump_counter (run m inps s) <= 14.
Proof.
  induction inps as [|inp rest IH]; intros s Hs; [exact Hs|].
  cbn [run]. apply IH, main_jump_counter_range, Hs.
Qed.

(** C5, with the one condition the count to zero needs made explicit (no
    further rising edge of the jump input while grounded).  For a state
    whose counter is between 0 and 14, as it is at the start of every tick:
    - the counter is set to 15 exactly when the jump input is true, was false
      at the previous tick, and the gravity move reported a ground;
    - while the counter is positive it is decremented by one and the player
      is moved by [move(m, "y", -5)];
    - if the tick's [y_difference] is zero while the counter is still
      positive, the counter ends the tick at 0, otherwise at the
      decremented value;
    - the counter stays between 0 and 14 at the end of the tick, and so in
      every state reached from the loaded page;
    - after a trigger without roof hit, [n <= 14] further ticks without roof
      hit and without trigger leave the counter at [14 - n]: it is 0 after
      15 ticks, counting the tick of the trigger, and not before. *)
Theorem jump_counter_state_machine (m : nat) (inp : Input) (s : State) (inps : list Input) :
  0 <= jump_counter s <= 14 ->
  let t := tick m inp s in
  (t_counter_set t = 15 <->
     jumping inp = true /\ jumping_previous s = false /\ t_ground t <> None) /\
  (t_counter_set t <> 15 -> t_counter_set t = jump_counter s) /\
  (0 < t_counter_set t ->
     t_counter_dec t = t_counter_set t - 1 /\
     t_after_jump t = mr_store (move (t_after_elevators t) m AxisY (-5)%Q)) /\
  (t_counter_set t = 0 ->
     t_counter_dec t = 0 /\ t_after_jump t = t_after_elevators t) /\
  ((t_y_difference t == 0)%Q -> 0 < t_counter_dec t -> jump_counter (main m inp s) = 0) /\
  (~ (t_y_difference t == 0)%Q -> jump_counter (main m inp s) = t_counter_dec t) /\
  0 <= jump_counter (main m inp s) <= 14 /\
  (forall d l, 0 <= jump_counter (run m l (initial d)) <= 14) /\
  (t_counter_set t = 15 -> t_roof_hit t = false ->
   quiet m inps (main m inp s) = true -> (length inps <= 14)%nat ->
   jump_counter (run m inps (main m inp s)) = 14 - Z.of_nat (length inps)).
Proof.
  intros Hs t.
  assert (Hset : t_counter_set t = 15 <-> t_triggered t = true).
  { subst t. rewrite tick_counter_set. destruct (t_triggered (tick m inp s)); split; intros; try reflexivity; try discriminate; lia. }
  assert (Hdec : t_counter_dec t =
                 if 0 <? t_counter_set t then t_counter_set t - 1 else t_counter_set t)
    by reflexivity.
  assert (Hset_range : 0 <= t_counter_set t <= 15).
  { subst t. rewrite tick_counter_set. destruct (t_triggered (tick m inp s)); lia. }
  assert (Hnext : jump_counter (main m inp s) = if t_roof_hit t then 0 else t_counter_dec t)
    by reflexivity.
  split_and!.
  - rewrite Hset. apply tick_triggered_iff.
  - intros H. subst t. rewrite tick_counter_set in *.
    destruct (t_triggered (tick m inp s)); [congruence | reflexivity].
  - intros Hpos. split.
    + rewrite Hdec. destruct (Z.ltb_spec 0 (t_counter_set t)); lia.
    + subst t. rewrite tick_after_jump.
      destruct (Z.ltb_spec 0 (t_counter_set (tick m inp s))); [reflexivity | lia].
  - intros H0. split.
    + rewrite Hdec, H0. reflexivity.
    + subst t. rewrite tick_after_jump, H0. reflexivity.
  - intros Hy Hpos. rewrite Hnext. subst t. rewrite tick_roof_hit.
    apply Qeq_bool_iff in Hy. rewrite Hy.
    destruct (Z.ltb_spec 0 (t_counter_dec (tick m inp s))); [reflexivity | lia].
  - intros Hy. rewrite Hnext. subst t. rewrite tick_roof_hit.
    destruct (Qeq_bool (t_y_difference (tick m inp s)) 0) eqn:E; [|reflexivity].
    apply Qeq_bool_iff in E. contradiction.
  - apply main_jump_counter_range; lia.
  - apply main_jump_counter_range; lia.
  - intros d l. apply run_jump_counter_range. cbn. lia.
  - intros H15 Hroof Hq Hlen.
    assert (H14 : jump_counter (main m inp s) = 14).
    { rewrite Hnext, Hroof, Hdec, H15. reflexivity. }
    rewrite quiet_countdown; [lia | exact Hq | lia].
Qed.

Lemma jump_counter_state_machine_witness :
  jump_counter (run 0 (repeat hold 14) (main 0 hold (initial meadow))) = 0.
Proof.
  assert (H : 0 <= jump_counter (initial meadow) <= 14) by (cbn; lia).
  destruct (jump_counter_state_machine 0 hold (initial meadow) (repeat hold 14) H)
    as (_ & _ & _ & _ & _ & _ & _ & _ & Hrun).
  apply Hrun.
  - vm_compute. reflexivity.
  - vm_compute. reflexivity.
  - vm_compute. reflexivity.
  - cbn. lia.
Defined.

(** The count to zero can take more than 15 ticks without any roof hit.
    From the loaded page the first tick sets the counter to 15; at the
    second tick the player stands on the first step, at the third on the
    second step, where the new rising edge sets the counter, which was 13,
    to 15 again.  No tick of the fifteen hits a roof, and the counter is 2
    at the end. *)
Lemma jump_counter_restarts_during_ascent :
  t_counter_set (tick 0 jump_right (initial stairs)) = 15 /\
  length climb = 15%nat /\
  no_roof_hit 0 climb (initial stairs) = true /\
  jump_counter (run 0 [jump_right; run_right] (initial stairs)) = 13 /\
  jump_counter (run 0 [jump_right; run_right; jump_right] (initial stairs)) = 14 /\
  jump_counter (run 0 climb (initial stairs)) = 2.
Proof. vm_compute. repeat split. Qed.

Local Close Scope Z_scope.

(** ** The displacement returned by the mover *)

(** C4 at two failing inputs.  The gravity move of a player drawn five units
    into the ground is resolved against the ground: the player is put at 89
    and the returned difference is -6 for a requested velocity of 3.  And in
    the first tick of a player who stands on the turf and runs to the right,
    gravity is resolved against the soil, which leaves the player one unit
    inside the turf, and the run move of that tick, resolved against the
    turf, puts the player left of it: the difference is -61 for a requested
    velocity of 3. *)
Theorem move_difference_exceeds_velocity :
  (let res := move sunk 0 AxisY 3 in
   collided_with res = Some 1%nat /\
   difference res == -6 /\
   ~ Qabs (difference res) <= Qabs 3) /\
  (let t := tick 0 run_right (initial turf) in
   let res := move (t_after_jump t) 0 AxisX (3 * running run_right) in
   doc (t_next t) = mr_store res /\
   collided_with res = Some 2%nat /\
   difference res == -61 /\
   ~ Qabs (difference res) <= Qabs (3 * running run_right)).
Proof.
  cbv zeta. split.
  - split; [reflexivity|]. split; qeval.
  - split; [reflexivity|]. split; [vm_compute; reflexivity|]. split; qeval.
Qed.

End JsGameSpec.

(** * Facts about the earlier variants *)

Module LegacySpec.
Import Legacy.

Local Open Scope Z_scope.

Lemma set_axis_twice e axis a b : set_axis (set_axis e axis a) axis b = set_axis e axis b.
Proof. destruct axis; reflexivity. Qed.

Lemma attr_set_axis e axis a : attr (set_axis e axis a) (attr_of_axis axis) = a.
Proof. destruct axis; reflexivity. Qed.

Lemma size_set_axis e axis a : attr (set_axis e axis a) (sizeName axis) = attr e (sizeName axis).
Proof. destruct axis; reflexivity. Qed.

Section Variant.

Variable collision : Rect -> Rect -> bool.
Variable gap : Z.
Variable skips_pattern : bool.

Lemma new_position_resting axis vel before r e :
  vel <> 0 ->
  new_position gap axis vel before r e =
  if Z.abs (resting gap axis vel r e - before) <=? Z.abs vel
  then resting gap axis vel r e else before.
Proof.
  intros Hvel. unfold new_position, resting.
  destruct (Z.ltb_spec vel 0); [reflexivity|].
  destruct (Z.ltb_spec 0 vel); [reflexivity | lia].
Qed.

Lemma new_position_size axis vel before r e a :
  new_position gap axis vel before r (set_axis e axis a) =
  new_position gap axis vel before r e.
Proof. unfold new_position. rewrite size_set_axis. reflexivity. Qed.

Lemma new_position_bounded axis vel before r e :
  Z.abs (new_position gap axis vel before r e - before) <= Z.abs vel.
Proof.
  unfold new_position.
  repeat match goal with
         | |- context [if ?c then _ else _] => destruct c eqn:?
         end; try lia.
Qed.

(** What the loop returns: the element and [collided_with] as they were
    given, or the last blocking rectangle and the position stored for it. *)
Lemma legacy_scan_cases movable axis vel before rs : forall i e collided,
  scan collision gap skips_pattern movable axis vel before i rs e collided = (e, collided) \/
  exists k r, rs !! k = Some r /\
    scan collision gap skips_pattern movable axis vel before i rs e collided =
    (set_axis e axis (new_position gap axis vel before r e), Some (i + k)%nat).
Proof.
  induction rs as [|r rs IH]; intros i e collided; [left; reflexivity|].
  cbn [scan].
  destruct (Nat.eqb i movable).
  { destruct (IH (S i) e collided) as [H | (k & r' & Hk & H)]; [left; exact H|].
    right. exists (S k), r'. replace (i + S k)%nat with (S i + k)%nat by lia. auto. }
  destruct (rect_traversable r).
  { destruct (IH (S i) e collided) as [H | (k & r' & Hk & H)]; [left; exact H|].
    right. exists (S k), r'. replace (i + S k)%nat with (S i + k)%nat by lia. auto. }
  destruct (skips_pattern && rect_in_pattern r).
  { destruct (IH (S i) e collided) as [H | (k & r' & Hk & H)]; [left; exact H|].
    right. exists (S k), r'. replace (i + S k)%nat with (S i + k)%nat by lia. auto. }
  destruct (collision r e).
  - right.
    destruct (IH (S i) (set_axis e axis (new_position gap axis vel before r e)) (Some i))
      as [H | (k & r' & Hk & H)].
    + exists 0%nat, r. rewrite Nat.add_0_r. auto.
    + exists (S k), r'. split; [exact Hk|].
      rewrite H, set_axis_twice, new_position_size.
      replace (i + S k)%nat with (S i + k)%nat by lia. reflexivity.
  - destruct (IH (S i) e collided) as [H | (k & r' & Hk & H)]; [left; exact H|].
    right. exists (S k), r'. replace (i + S k)%nat with (S i + k)%nat by lia. auto.
Qed.

(** The moved element after [move], from the obstacle in [collided_with]. *)
Lemma legacy_move_cases doc movable axis vel e res :
  doc !! movable = Some e ->
  move collision gap skips_pattern doc movable axis vel = Some res ->
  let before := attr e (attr_of_axis axis) in
  (collided_with res = None /\ difference res = vel /\
   mr_store res = <[movable := set_axis e axis (before + vel)]> doc) \/
  (exists k r, collided_with res = Some k /\ doc !! k = Some r /\
     difference res = new_position gap axis vel before r e - before /\
     mr_store res = <[movable := set_axis e axis (new_position gap axis vel before r e)]> doc).
Proof.
  intros He. unfold move. rewrite He. cbv zeta.
  set (before := attr e (attr_of_axis axis)).
  destruct (legacy_scan_cases movable axis vel before doc 0 (set_axis e axis (before + vel)) None)
    as [H | (k & r & Hk & H)]; rewrite H; intros [= <-]; cbn [collided_with difference mr_store].
  - left. rewrite attr_set_axis. repeat split. lia.
  - right. exists k, r. rewrite set_axis_twice, new_position_size, attr_set_axis. auto.
Qed.

(** The displacement returned by [move] is never larger than the request. *)
Lemma legacy_move_difference_bounded doc movable axis vel res :
  move collision gap skips_pattern doc movable axis vel = Some res ->
  Z.abs (difference res) <= Z.abs vel.
Proof.
  intros Hmove.
  destruct (doc !! movable) as [e|] eqn:He.
  - destruct (legacy_move_cases doc movable axis vel e res He Hmove)
      as [(_ & -> & _) | (k & r & _ & _ & -> & _)]; [lia|].
    apply new_position_bounded.
  - unfold move in Hmove. rewrite He in Hmove. discriminate.
Qed.

End Variant.

End LegacySpec.

Module Part000Spec.
Import Legacy LegacySpec.

Local Open Scope Z_scope.

(** C1, as the code has it.  In [part_000], after a call with [vel <> 0]
    that recorded the obstacle [r] in [collided_with], the coordinate of the
    moved element is the resting position against [r] (far edge plus 1 for
    [vel < 0], near edge minus the element's size minus 1 for [vel > 0])
    exactly when that position is within [|vel|] of [before]; otherwise the
    coordinate is [before] again. *)
Theorem move_accepts_resting_iff_valid
    (doc : list Rect) (movable : nat) (axis : Axis) (vel : Z) (e r : Rect)
    (res : MoveResult) (k : nat) :
  vel <> 0 ->
  doc !! movable = Some e ->
  Part000.move doc movable axis vel = Some res ->
  collided_with res = Some k ->
  doc !! k = Some r ->
  let before := attr e (attr_of_axis axis) in
  let candidate := resting 1 axis vel r e in
  exists e', mr_store res !! movable = Some e' /\
    attr e' (attr_of_axis axis) =
      (if Z.abs (candidate - before) <=? Z.abs vel then candidate else before).
Proof.
  intros Hvel He Hmove Hk Hr before candidate.
  destruct (legacy_move_cases Part000.collision 1 false doc movable axis vel e res He Hmove)
    as [(Hnone & _) | (k' & r' & Hk' & Hr' & _ & Hstore)]; [congruence|].
  assert (k' = k) by congruence. subst k'.
  assert (r' = r) by congruence. subst r'.
  exists (set_axis e axis (new_position 1 axis vel before r e)). split.
  - rewrite Hstore. apply list_lookup_insert_eq. eapply lookup_lt_Some. exact He.
  - rewrite attr_set_axis. apply new_position_resting. exact Hvel.
Qed.

Lemma move_accepts_resting_iff_valid_witness :
  exists e', <[0%nat := rect 0 89 10 10]> falling !! 0%nat = Some e' /\
    attr e' A_y = 89.
Proof.
  apply (move_accepts_resting_iff_valid falling 0 AxisY 3
           (rect 0 87 10 10) (rect 0 100 200 20)
           (mkMoveResult (<[0%nat := rect 0 89 10 10]> falling) 2 (Some 1%nat)) 1).
  - lia.
  - reflexivity.
  - reflexivity.
  - reflexivity.
  - reflexivity.
Defined.

(** In [part_000] a resting position farther than [|vel|] from [before] does
    not leave the element at [before + vel]: the move of a player sunk into
    the ground by gravity finds the resting position 89, six units from
    [before = 95], and the player ends at 95, not at 98. *)
Lemma move_invalid_resets_to_before :
  Part000.move sunk 0 AxisY 3 =
    Some (mkMoveResult [rect 0 95 10 10; rect 0 100 200 20] 0 (Some 1%nat)) /\
  resting 1 AxisY 3 (rect 0 100 200 20) (rect 0 95 10 10) = 89 /\
  Z.abs (89 - 95) > Z.abs 3 /\
  attr (rect 0 95 10 10) A_y <> 95 + 3.
Proof.
  split; [reflexivity|]. split; [reflexivity|]. split; [reflexivity|].
  intros H. vm_compute in H. discriminate H.
Qed.

(** The displacement returned by [move] of [part_000] never exceeds the
    requested velocity. *)
Lemma part000_move_difference_bounded doc movable axis vel res :
  Part000.move doc movable axis vel = Some res ->
  Z.abs (difference res) <= Z.abs vel.
Proof. apply legacy_move_difference_bounded. Qed.

(** [collision] of [part_000] is closed: boxes that touch collide. *)
Example part000_collision_closed :
  Part000.collision (rect 0 0 10 10) (rect 10 5 10 10) = true.
Proof. reflexivity. Qed.

(** The loop of [part_000] has no [break]: with the ground at position 1 and
    a wall touching the player's side at position 2, both are resolved and
    the wall is the rectangle reported. *)
Example part000_scan_goes_on :
  collided_with <$> Part000.move [rect 0 89 10 10; rect 0 100 200 20; rect 10 0 5 200] 0 AxisY 3
  = Some (Some 2%nat).
Proof. reflexivity. Qed.

End Part000Spec.

Module Part001Spec.
Import Legacy LegacySpec.

Local Open Scope Z_scope.

(** The same rule in [part_001], whose resting positions have no gap. *)
Lemma part001_resting_accepted_iff_valid
    (doc : list Rect) (movable : nat) (axis : Axis) (vel : Z) (e r : Rect)
    (res : MoveResult) (k : nat) :
  vel <> 0 ->
  doc !! movable = Some e ->
  Part001.move doc movable axis vel = Some res ->
  collided_with res = Some k ->
  doc !! k = Some r ->
  let before := attr e (attr_of_axis axis) in
  let candidate := resting 0 axis vel r e in
  exists e', mr_store res !! movable = Some e' /\
    attr e' (attr_of_axis axis) =
      (if Z.abs (candidate - before) <=? Z.abs vel then candidate else before).
Proof.
  intros Hvel He Hmove Hk Hr before candidate.
  destruct (legacy_move_cases Part001.collision 0 true doc movable axis vel e res He Hmove)
    as [(Hnone & _) | (k' & r' & Hk' & Hr' & _ & Hstore)]; [congruence|].
  assert (k' = k) by congruence. subst k'.
  assert (r' = r) by congruence. subst r'.
  exists (set_axis e axis (new_position 0 axis vel before r e)). split.
  - rewrite Hstore. apply list_lookup_insert_eq. eapply lookup_lt_Some. exact He.
  - rewrite attr_set_axis. apply new_position_resting. exact Hvel.
Qed.

Lemma part001_move_difference_bounded doc movable axis vel res :
  Part001.move doc movable axis vel = Some res ->
  Z.abs (difference res) <= Z.abs vel.
Proof. apply legacy_move_difference_bounded. Qed.

(** [collision] of [part_001] is strict: boxes that only touch do not collide. *)
Example part001_collision_strict :
  Part001.collision (rect 0 0 10 10) (rect 10 5 10 10) = false.
Proof. reflexivity. Qed.

End Part001Spec.

(** * More facts about jsgame.script.js *)

Module JsGameExtra.
Import JsGame JsGameSpec JsGameShell.

(** ** Rounding in setAttrValue *)

Lemma Qfloor_half (z : Z) : Qfloor (inject_Z z + (1 # 2)) = z.
Proof.
  unfold Qfloor, Qplus, inject_Z. cbn.
  symmetry. apply Z.div_unique with (r := 1%Z); lia.
Qed.

Lemma round1_comp (a b : Q) : a == b -> round1 a == round1 b.
Proof.
  intros H. unfold round1.
  assert (E : Qfloor (a * 10 + (1 # 2)) = Qfloor (b * 10 + (1 # 2))).
  { apply Qfloor_comp. rewrite H. reflexivity. }
  rewrite E. reflexivity.
Qed.

Lemma round1_tenths (z : Z) : round1 (inject_Z z / 10) == inject_Z z / 10.
Proof.
  unfold round1.
  assert (E : Qfloor (inject_Z z / 10 * 10 + (1 # 2)) = z).
  { assert (Q10 : inject_Z z / 10 * 10 + (1 # 2) == inject_Z z + (1 # 2)) by field.
    rewrite (Qfloor_comp _ _ Q10). apply Qfloor_half. }
  rewrite E. reflexivity.
Qed.

Lemma round1_bounds (v : Q) : v - (1 # 20) < round1 v /\ round1 v <= v + (1 # 20).
Proof.
  unfold round1.
  pose proof (Qfloor_le (v * 10 + (1 # 2))) as Hle.
  pose proof (Qlt_floor (v * 10 + (1 # 2))) as Hlt.
  rewrite inject_Z_plus in Hlt.
  set (f := inject_Z (Qfloor (v * 10 + (1 # 2)))) in *.
  change (inject_Z 1) with 1 in Hlt.
  split.
  - apply Qlt_shift_div_l; [reflexivity|]. lra.
  - apply Qle_shift_div_r; [reflexivity|]. lra.
Qed.


(** ** More on the mover *)

(** X2.  The element recorded in [collided_with] is never the moved element,
    never traversable, never inside a [pattern], and it collides with the
    moved element at its tentative position. *)
Theorem move_collided_is_blocker
    (d : list Elem) (movable : nat) (axis : Axis) (vel : Q) (k : nat) :
  collided_with (move d movable axis vel) = Some k ->
  k <> movable /\
  exists r e, d !! k = Some r /\ d !! movable = Some e /\
    traversable r = false /\ in_pattern r = false /\
    collision (Some r) (Some (tentative e axis vel)) = true.
Proof.
  unfold move. destruct (d !! movable) as [e|] eqn:He; [|discriminate].
  fold (tentative e axis vel).
  destruct (scan_cases movable axis vel (getAttrValue e (attr_of_axis axis)) d 0
              (tentative e axis vel)) as [H | (k' & r & Hk & Hb & H)]; rewrite H;
    cbn [collided_with]; [discriminate|].
  intros [= <-]. cbn [Nat.add] in *. unfold blocks in Hb.
  rewrite !andb_true_iff, !negb_true_iff in Hb. destruct Hb as [[[Hne Ht] Hp] Hc].
  split; [apply Nat.eqb_neq; exact Hne|].
  exists r, e. auto.
Qed.

Lemma move_collided_is_blocker_witness :
  1%nat <> 0%nat /\
  exists r e, [player0; ground0; slab0] !! 1%nat = Some r /\
    [player0; ground0; slab0] !! 0%nat = Some e /\
    traversable r = false /\ in_pattern r = false /\
    collision (Some r) (Some (tentative e AxisY 3)) = true.
Proof.
  apply (move_collided_is_blocker [player0; ground0; slab0] 0 AxisY 3 1).
  vm_compute. reflexivity.
Defined.

Lemma scan_none_inv movable axis vel before rs : forall i e e',
  scan movable axis vel before i rs e = (e', None) ->
  forall k r, rs !! k = Some r -> blocks movable e (i + k) r = false.
Proof.
  induction rs as [|a rs IH]; intros i e e' H k r Hk; [discriminate Hk|].
  rewrite scan_cons in H. destruct (blocks movable e i a) eqn:B; [discriminate H|].
  destruct k as [|k].
  - cbn in Hk. injection Hk as <-. rewrite Nat.add_0_r. exact B.
  - replace (i + S k)%nat with (S i + k)%nat by lia. eapply IH; [exact H | exact Hk].
Qed.

(** X3.  [move] records no obstacle exactly when no element of the document
    blocks the element at its tentative position; the element then stays at
    the tentative position and the difference is the rounded request. *)
Theorem move_unblocked_iff
    (d : list Elem) (movable : nat) (axis : Axis) (vel : Q) (e : Elem) :
  d !! movable = Some e ->
  (collided_with (move d movable axis vel) = None <->
   forall k r, d !! k = Some r -> blocks movable (tentative e axis vel) k r = false) /\
  (collided_with (move d movable axis vel) = None ->
   mr_store (move d movable axis vel) = <[movable := tentative e axis vel]> d /\
   difference (move d movable axis vel) =
     round1 (getAttrValue e (attr_of_axis axis) + vel) - getAttrValue e (attr_of_axis axis)).
Proof.
  intros He. unfold move. rewrite He. fold (tentative e axis vel).
  destruct (scan_cases movable axis vel (getAttrValue e (attr_of_axis axis)) d 0
              (tentative e axis vel)) as [H | (k' & r & Hk & Hb & H)]; rewrite H;
    cbn [collided_with mr_store difference].
  - split.
    + split; [|reflexivity]. intros _ k r Hk.
      apply (scan_none_inv movable axis vel _ d 0 _ _ H k r Hk).
    + intros _. split; [reflexivity|]. destruct axis; reflexivity.
  - split; [|discriminate]. split; [discriminate|].
    intros Hall. cbn [Nat.add] in Hb. rewrite (Hall k' r Hk) in Hb. discriminate.
Qed.

Lemma move_unblocked_iff_witness :
  collided_with (move meadow 0 AxisY (-5)) = None <->
  forall k r, meadow !! k = Some r -> blocks 0 (tentative player0 AxisY (-5)) k r = false.
Proof.
  apply (proj1 (move_unblocked_iff meadow 0 AxisY (-5) player0 eq_refl)).
Defined.

Lemma getAttrValue_setAttrValue e axis q :
  getAttrValue (setAttrValue e axis q) (attr_of_axis axis) = round1 q.
Proof. destruct axis; reflexivity. Qed.

(** The moved element after [move]: at its tentative position, or at the
    resting position against the recorded obstacle. *)
Lemma move_moved_element d movable axis vel e :
  d !! movable = Some e ->
  let res := move d movable axis vel in
  let before := getAttrValue e (attr_of_axis axis) in
  (collided_with res = None /\
   mr_store res !! movable = Some (setAttrValue e axis (before + vel))) \/
  (exists k r, collided_with res = Some k /\ d !! k = Some r /\
     mr_store res !! movable =
       Some (setAttrValue e axis (new_position axis vel before r (tentative e axis vel)))).
Proof.
  intros He. cbv zeta. unfold move. rewrite He. fold (tentative e axis vel).
  assert (Hlt : (movable < length d)%nat) by (eapply lookup_lt_Some; exact He).
  destruct (scan_cases movable axis vel (getAttrValue e (attr_of_axis axis)) d 0
              (tentative e axis vel)) as [H | (k & r & Hk & _ & H)]; rewrite H;
    cbn [collided_with mr_store].
  - left. split; [reflexivity|]. apply list_lookup_insert_eq. exact Hlt.
  - right. exists k, r. cbn [Nat.add]. split; [reflexivity|]. split; [exact Hk|].
    rewrite list_lookup_insert_eq by exact Hlt.
    unfold tentative at 1. rewrite setAttrValue_twice. reflexivity.
Qed.

(** X4.  After a move with a velocity other than zero that recorded an
    obstacle, the moved element no longer collides with that obstacle: the
    one unit gap is kept by the rounding and is wider than the tolerance. *)
Theorem move_leaves_gap
    (d : list Elem) (movable : nat) (axis : Axis) (vel : Q) (e r e' : Elem) (k : nat) :
  ~ vel == 0 ->
  d !! movable = Some e ->
  collided_with (move d movable axis vel) = Some k ->
  d !! k = Some r ->
  mr_store (move d movable axis vel) !! movable = Some e' ->
  collision (Some r) (Some e') = false.
Proof.
  intros Hvel He Hk Hr He'.
  destruct (move_moved_element d movable axis vel e He)
    as [[Hnone _] | (k' & r' & Hk' & Hr' & Hstore)]; [congruence|].
  assert (k' = k) by congruence. subst k'.
  assert (r' = r) by congruence. subst r'.
  rewrite Hstore in He'. injection He' as <-.
  destruct (collision (Some r) (Some _)) eqn:C; [exfalso | reflexivity].
  apply collision_true_iff in C. destruct C as (C1 & C2 & C3 & C4).
  unfold new_position in *. cbv zeta in *.
  destruct (Qlt_bool vel 0) eqn:Hneg.
  - match type of C1 with context [setAttrValue e axis ?v] =>
      destruct (round1_bounds v) as [Hlo Hhi] end.
    destruct axis; unfold tolerance in *;
      cbn [getSVGRect setAttrValue tentative getAttrValue attr_of_axis sizeName
           attr_x attr_y attr_width attr_height b_left b_right b_top b_bottom] in *; lra.
  - destruct (Qlt_bool 0 vel) eqn:Hpos.
    + match type of C1 with context [setAttrValue e axis ?v] =>
        destruct (round1_bounds v) as [Hlo Hhi] end.
      destruct axis; unfold tolerance in *;
        cbn [getSVGRect setAttrValue tentative getAttrValue attr_of_axis sizeName
             attr_x attr_y attr_width attr_height b_left b_right b_top b_bottom] in *; lra.
    + exfalso. apply Hvel.
      unfold Qlt_bool in Hneg, Hpos. rewrite negb_false_iff in Hneg, Hpos.
      apply Qle_bool_iff in Hneg, Hpos. lra.
Qed.

Lemma move_leaves_gap_witness :
  collision (Some ground0) (Some (setAttrValue player0 AxisY 89)) = false.
Proof.
  apply (move_leaves_gap [player0; ground0; slab0] 0 AxisY 3 player0 ground0 _ 1).
  - qeval.
  - reflexivity.
  - vm_compute. reflexivity.
  - reflexivity.
  - vm_compute. reflexivity.
Defined.

(** A move with velocity zero stores the old coordinate again, rounded. *)
Lemma move_zero_result
    (d : list Elem) (movable : nat) (axis : Axis) (vel : Q) (e : Elem) :
  vel == 0 ->
  d !! movable = Some e ->
  exists q, q == getAttrValue e (attr_of_axis axis) /\
    mr_store (move d movable axis vel) !! movable = Some (setAttrValue e axis q) /\
    difference (move d movable axis vel) = round1 q - getAttrValue e (attr_of_axis axis).
Proof.
  intros Hvel He.
  assert (Hneg : Qlt_bool vel 0 = false).
  { unfold Qlt_bool. rewrite negb_false_iff. apply Qle_bool_iff. lra. }
  assert (Hpos : Qlt_bool 0 vel = false).
  { unfold Qlt_bool. rewrite negb_false_iff. apply Qle_bool_iff. lra. }
  unfold move. rewrite He. fold (tentative e axis vel).
  assert (Hlt : (movable < length d)%nat) by (eapply lookup_lt_Some; exact He).
  destruct (scan_cases movable axis vel (getAttrValue e (attr_of_axis axis)) d 0
              (tentative e axis vel)) as [H | (k & r & _ & _ & H)]; rewrite H;
    cbn [mr_store difference]; rewrite list_lookup_insert_eq by exact Hlt.
  - exists (getAttrValue e (attr_of_axis axis) + vel). split; [lra|].
    split; [reflexivity|]. unfold tentative. rewrite getAttrValue_setAttrValue. reflexivity.
  - exists (getAttrValue e (attr_of_axis axis)). split; [reflexivity|].
    unfold new_position. rewrite Hneg, Hpos.
    unfold tentative. rewrite setAttrValue_twice, getAttrValue_setAttrValue.
    split; reflexivity.
Qed.

(** X5.  A move with velocity zero leaves the coordinate where it is and
    returns a zero difference, whether or not anything collides, provided the
    coordinate is a multiple of one tenth (as every stored coordinate is). *)
Theorem move_zero_velocity
    (d : list Elem) (movable : nat) (axis : Axis) (vel : Q) (e : Elem) :
  vel == 0 ->
  d !! movable = Some e ->
  on_grid (getAttrValue e (attr_of_axis axis)) ->
  difference (move d movable axis vel) == 0 /\
  exists e', mr_store (move d movable axis vel) !! movable = Some e' /\
    getAttrValue e' (attr_of_axis axis) == getAttrValue e (attr_of_axis axis).
Proof.
  intros Hvel He Hgrid. unfold on_grid in Hgrid.
  destruct (move_zero_result d movable axis vel e Hvel He) as (q & Hq & Hstore & Hdiff).
  assert (Hr : round1 q == getAttrValue e (attr_of_axis axis)).
  { rewrite (round1_comp _ _ Hq). exact Hgrid. }
  split.
  - rewrite Hdiff. lra.
  - eexists. split; [exact Hstore|]. rewrite getAttrValue_setAttrValue. exact Hr.
Qed.

Lemma move_zero_velocity_witness :
  difference (move meadow 0 AxisX 0) == 0 /\
  exists e', mr_store (move meadow 0 AxisX 0) !! 0%nat = Some e' /\
    getAttrValue e' A_x == getAttrValue player0 A_x.
Proof.
  apply (move_zero_velocity meadow 0 AxisX 0 player0).
  - reflexivity.
  - reflexivity.
  - qeval.
Defined.

(** ** More on the collision predicate *)

(** X6.  An element with non-negative sizes collides with itself, which is
    why the scan of [move] has to leave the moved element out. *)
Theorem collision_reflexive (a : Elem) :
  valid_box a -> collision (Some a) (Some a) = true.
Proof.
  intros [Hw Hh]. apply collision_true_iff.
  unfold tolerance. cbn [getSVGRect b_left b_right b_top b_bottom].
  repeat split; lra.
Qed.

Lemma collision_reflexive_witness : collision (Some player0) (Some player0) = true.
Proof.
  apply collision_reflexive. split; qeval.
Defined.

Lemma Qle_bool_tolerance_r (a b c : Z) :
  Qle_bool (inject_Z a) (inject_Z b + inject_Z c + tolerance) = (a <=? b + c)%Z.
Proof.
  apply eq_true_iff_eq. rewrite Qle_bool_iff, Z.leb_le.
  unfold Qle, Qplus, inject_Z, tolerance. cbn. lia.
Qed.

Lemma Qle_bool_tolerance_l (a b c : Z) :
  Qle_bool (inject_Z a - tolerance) (inject_Z b + inject_Z c) = (a <=? b + c)%Z.
Proof.
  apply eq_true_iff_eq. rewrite Qle_bool_iff, Z.leb_le.
  unfold Qle, Qminus, Qplus, Qopp, inject_Z, tolerance. cbn. lia.
Qed.

(** X7.  On boxes with integer coordinates and sizes the tolerance of 0.1
    decides nothing: [collision] of [jsgame.script.js] gives the answer of
    the closed comparison of [part_000]. *)
Theorem collision_integer_boxes (x y w h x' y' w' h' : Z) :
  collision (Some (box x y w h)) (Some (box x' y' w' h')) =
  Part000.collision (Legacy.rect x y w h) (Legacy.rect x' y' w' h').
Proof.
  unfold collision, Part000.collision, box, Legacy.rect, getSVGRect,
    Legacy.getBoundingClientRect.
  cbn [attr_x attr_y attr_width attr_height b_left b_right b_top b_bottom
       Legacy.rect_x Legacy.rect_y Legacy.rect_width Legacy.rect_height].
  rewrite !Qle_bool_tolerance_r, !Qle_bool_tolerance_l, !Z.geb_leb. reflexivity.
Qed.

(** ** What a tick keeps *)

Lemma move_lookup_ne d movable axis vel j :
  j <> movable -> mr_store (move d movable axis vel) !! j = d !! j.
Proof.
  intros Hj. destruct (move_store d movable axis vel) as [q ->].
  apply list_lookup_alter_ne. congruence.
Qed.

(** A property of elements that neither [setAttrValue] on the vertical axis
    nor the two properties of an elevator change is kept by an iteration of
    the elevator loop, at every position. *)
Lemma elevator_step_fmap {A} (f : Elem -> A) m ground d i :
  (forall e q, f (setAttrValue e AxisY q) = f e) ->
  (forall e v on, f (set_elevator_state e v on) = f e) ->
  forall j, f <$> elevator_step m ground d i !! j = f <$> d !! j.
Proof.
  intros Hset Hstate j.
  unfold elevator_step. destruct (d !! i) as [el|] eqn:He; [|reflexivity].
  assert (Hm : f <$> mr_store (elevator_move m ground d i el) !! j = f <$> d !! j).
  { rewrite (elevator_move_fmap f) by exact Hset.
    unfold elevator_enter. rewrite list_lookup_insert.
    destruct (decide (i = j /\ (i < length d)%nat)) as [[-> _]|]; [|reflexivity].
    rewrite He. cbn. rewrite Hstate. reflexivity. }
  destruct (stopped_arg (elevator_move m ground d i el)); [|exact Hm].
  rewrite list_lookup_alter. case_decide; [subst j|exact Hm].
  rewrite <- Hm.
  destruct (mr_store (elevator_move m ground d i el) !! i) as [e0|]; [|reflexivity].
  cbn. unfold invert. rewrite Hstate. reflexivity.
Qed.

Lemma elevators_from_fmap {A} (f : Elem -> A) m ground l :
  (forall e q, f (setAttrValue e AxisY q) = f e) ->
  (forall e v on, f (set_elevator_state e v on) = f e) ->
  forall d j, f <$> elevators_from m ground l d !! j = f <$> d !! j.
Proof.
  intros Hset Hstate. induction l as [|i l IH]; intros d j; [reflexivity|].
  cbn [elevators_from fold_left]. fold (elevators_from m ground l (elevator_step m ground d i)).
  rewrite IH. apply elevator_step_fmap; assumption.
Qed.

(** An iteration of the elevator loop writes to the elevator and to the
    player only. *)
Lemma elevator_step_lookup_ne m ground d i j :
  j <> i -> j <> m -> elevator_step m ground d i !! j = d !! j.
Proof.
  intros Hji Hjm. unfold elevator_step.
  destruct (d !! i) as [el|] eqn:He; [|reflexivity].
  assert (Hm : mr_store (elevator_move m ground d i el) !! j = d !! j).
  { unfold elevator_move. rewrite move_lookup_ne by exact Hji.
    unfold elevator_carry.
    destruct (option_nat_eqb ground i); [rewrite move_lookup_ne by exact Hjm|];
      unfold elevator_enter; apply list_lookup_insert_ne; congruence. }
  destruct (stopped_arg (elevator_move m ground d i el)); [|exact Hm].
  rewrite list_lookup_alter_ne by congruence. exact Hm.
Qed.

Lemma elevators_from_lookup_notin m ground l : forall d j,
  j ∉ l -> j <> m -> elevators_from m ground l d !! j = d !! j.
Proof.
  induction l as [|i l IH]; intros d j Hj Hjm; [reflexivity|].
  cbn [elevators_from fold_left]. fold (elevators_from m ground l (elevator_step m ground d i)).
  rewrite not_elem_of_cons in Hj. destruct Hj as [Hji Hjl].
  rewrite IH by assumption. apply elevator_step_lookup_ne; assumption.
Qed.

(** After the elevator loop [main] writes to the player only. *)
Lemma main_lookup_ne m inp s j :
  j <> m -> doc (main m inp s) !! j = t_after_elevators (tick m inp s) !! j.
Proof.
  intros Hj. unfold main, tick. cbn [t_next doc t_after_elevators].
  rewrite move_lookup_ne by exact Hj.
  match goal with |- context [if ?c then mr_store ?x else ?y] => destruct c end;
    [apply move_lookup_ne; exact Hj | reflexivity].
Qed.

Lemma tick_fmap {A} (f : Elem -> A) m inp s :
  (forall axis e q, f (setAttrValue e axis q) = f e) ->
  (forall e v on, f (set_elevator_state e v on) = f e) ->
  forall j, f <$> doc (main m inp s) !! j = f <$> doc s !! j.
Proof.
  intros Hset Hstate j.
  rewrite (main_fmap f) by exact Hset.
  rewrite tick_after_elevators, elevators_from_fmap by auto.
  apply move_fmap. apply Hset.
Qed.

(** X8.  A tick changes no width, no height and no tag, and neither adds nor
    removes an element. *)
Theorem main_keeps_shapes (m : nat) (inp : Input) (s : State) :
  map shape_of (doc (main m inp s)) = map shape_of (doc s).
Proof.
  apply list_eq. intros j. rewrite !list_lookup_fmap.
  apply tick_fmap.
  - intros axis e q. destruct axis; reflexivity.
  - reflexivity.
Qed.

(** X9.  Apart from the player, a tick moves nothing horizontally, and it
    leaves every element that is not tagged [elevator] exactly as it was. *)
Theorem main_scenery_static (m : nat) (inp : Input) (s : State) (j : nat) (e : Elem) :
  j <> m ->
  doc s !! j = Some e ->
  attr_x <$> doc (main m inp s) !! j = Some (attr_x e) /\
  (elevator e = false -> doc (main m inp s) !! j = Some e).
Proof.
  intros Hjm He.
  set (dg := mr_store (move (doc s) m AxisY 3)).
  assert (Hdg : dg !! j = Some e).
  { unfold dg. rewrite move_lookup_ne by exact Hjm. exact He. }
  rewrite main_lookup_ne by exact Hjm. rewrite tick_after_elevators. fold dg.
  split.
  - rewrite (elevators_from_fmap attr_x) by reflexivity. rewrite Hdg. reflexivity.
  - intros Hel. rewrite elevators_from_lookup_notin; [exact Hdg | | exact Hjm].
    rewrite elevator_indices_spec. intros (k & el & Hk & Hlook & Hflag).
    cbn in Hk. subst k. congruence.
Qed.

Lemma main_scenery_static_witness :
  attr_x <$> doc (main 0 idle (initial level0)) !! 1%nat = Some (attr_x ground0) /\
  (elevator ground0 = false -> doc (main 0 idle (initial level0)) !! 1%nat = Some ground0).
Proof.
  apply (main_scenery_static 0 idle (initial level0) 1 ground0).
  - discriminate.
  - reflexivity.
Defined.

(** X10.  A tick never gives an [elevator_vel] to an element that is not
    tagged [elevator], the player included. *)
Theorem main_no_vel_for_scenery (m : nat) (inp : Input) (s : State) (j : nat) (e : Elem) :
  doc s !! j = Some e ->
  elevator e = false ->
  elevator_vel <$> doc (main m inp s) !! j = Some (elevator_vel e).
Proof.
  intros He Hel.
  set (dg := mr_store (move (doc s) m AxisY 3)).
  rewrite (main_fmap elevator_vel) by (intros; apply elevator_vel_setAttrValue).
  rewrite tick_after_elevators. fold dg.
  assert (Hflag : elevator <$> dg !! j = Some false).
  { unfold dg. rewrite (move_fmap elevator) by (intros; apply elevator_setAttrValue).
    rewrite He. cbn. congruence. }
  rewrite elevators_from_vel_notin.
  - unfold dg. rewrite (move_fmap elevator_vel) by (intros; apply elevator_vel_setAttrValue).
    rewrite He. reflexivity.
  - rewrite elevator_indices_spec. intros (k & el & Hk & Hlook & Hf).
    cbn in Hk. subst k. rewrite Hlook in Hflag. cbn in Hflag. congruence.
Qed.

Lemma main_no_vel_for_scenery_witness :
  elevator_vel <$> doc (main 0 idle (initial level0)) !! 0%nat = Some (elevator_vel player0).
Proof.
  apply (main_no_vel_for_scenery 0 idle (initial level0) 0 player0); reflexivity.
Defined.

(** ** Elevators never stand still *)

Lemma elevator_step_moving_at m ground d i :
  is_Some (d !! i) -> moving_at (elevator_step m ground d i) i.
Proof.
  intros [el He]. unfold moving_at.
  rewrite (elevator_step_vel_eq m ground d i el He).
  eexists. split; [reflexivity|].
  pose proof (elevator_vel_now_nonzero el) as Hnz.
  destruct (stopped_arg (elevator_move m ground d i el)); [|exact Hnz].
  intros H. apply Hnz. lra.
Qed.

Lemma elevator_step_moving_keep m ground d i j :
  moving_at d j -> moving_at (elevator_step m ground d i) j.
Proof.
  intros (v & Hv & Hnz). destruct (decide (j = i)) as [->|Hj].
  - apply elevator_step_moving_at. destruct (d !! i); [eauto | discriminate].
  - exists v. rewrite elevator_step_vel_ne by exact Hj. auto.
Qed.

Lemma elevators_from_moving m ground l : forall d j,
  (j ∈ l /\ is_Some (d !! j)) \/ moving_at d j ->
  moving_at (elevators_from m ground l d) j.
Proof.
  induction l as [|i l IH]; intros d j H.
  - destruct H as [[H _] | H]; [inversion H | exact H].
  - cbn [elevators_from fold_left]. fold (elevators_from m ground l (elevator_step m ground d i)).
    apply IH. destruct H as [[Hin Hsome] | Hmv].
    + apply elem_of_cons in Hin. destruct Hin as [-> | Hin].
      * right. apply elevator_step_moving_at. exact Hsome.
      * left. split; [exact Hin|].
        pose proof (elevator_step_flag m ground d i j) as Hf.
        destruct Hsome as [e He]. rewrite He in Hf.
        destruct (elevator_step m ground d i !! j); [eauto | discriminate].
    + right. apply elevator_step_moving_keep. exact Hmv.
Qed.

(** X11.  Whatever the state before, after a tick every element tagged
    [elevator] has a velocity and it is not zero: an elevator whose velocity
    is unset or zero is given +1, and the only other write negates. *)
Theorem main_elevators_never_still (m : nat) (inp : Input) (s : State) (j : nat) (e : Elem) :
  doc (main m inp s) !! j = Some e ->
  elevator e = true ->
  exists v, elevator_vel e = Some v /\ ~ v == 0.
Proof.
  intros Hj Hel.
  set (dg := mr_store (move (doc s) m AxisY 3)).
  pose proof (main_fmap elevator m inp s
                (fun axis e q => elevator_setAttrValue axis e q) j) as Hflag.
  rewrite Hj, tick_after_elevators, elevators_from_flag in Hflag. fold dg in Hflag.
  destruct (dg !! j) as [eg|] eqn:Hdg; [|discriminate].
  cbn in Hflag. injection Hflag as Hflag.
  assert (Hin : j ∈ elevator_indices 0 dg).
  { apply elevator_indices_spec. exists j, eg. repeat split; [exact Hdg | congruence]. }
  destruct (elevators_from_moving m (t_ground (tick m inp s)) (elevator_indices 0 dg) dg j)
    as (v & Hv & Hnz).
  { left. split; [exact Hin | rewrite Hdg; eauto]. }
  fold dg in Hv. rewrite <- tick_after_elevators in Hv.
  rewrite <- (main_fmap elevator_vel) in Hv by (intros; apply elevator_vel_setAttrValue).
  rewrite Hj in Hv. cbn in Hv. injection Hv as Hv. eauto.
Qed.

Lemma main_elevators_never_still_witness :
  exists e, doc (main 0 idle (initial level0)) !! 2%nat = Some e /\
    exists v, elevator_vel e = Some v /\ ~ v == 0.
Proof.
  eexists. split.
  - vm_compute. reflexivity.
  - apply (main_elevators_never_still 0 idle (initial level0) 2).
    + vm_compute. reflexivity.
    + reflexivity.
Defined.

(** ** The player's horizontal position *)

(** X12.  With the left and right intents both set or both clear, a tick
    leaves the player's horizontal coordinate where it was, provided that
    coordinate is a multiple of one tenth. *)
Theorem main_no_run_keeps_x (m : nat) (inp : Input) (s : State) (e : Elem) :
  in_left inp = in_right inp ->
  doc s !! m = Some e ->
  on_grid (attr_x e) ->
  exists e', doc (main m inp s) !! m = Some e' /\ attr_x e' == attr_x e.
Proof.
  intros Hlr He Hgrid.
  assert (Hrun : 3 * running inp == 0).
  { unfold running. rewrite Hlr. destruct (in_right inp); cbn; reflexivity. }
  set (d2 := t_after_jump (tick m inp s)).
  assert (Hd2 : attr_x <$> d2 !! m = Some (attr_x e)).
  { unfold d2. rewrite tick_after_jump.
    assert (Hae : attr_x <$> t_after_elevators (tick m inp s) !! m = Some (attr_x e)).
    { rewrite tick_after_elevators, (elevators_from_fmap attr_x) by reflexivity.
      rewrite (move_fmap attr_x) by reflexivity. rewrite He. reflexivity. }
    destruct (0 <? t_counter_set (tick m inp s))%Z; [|exact Hae].
    rewrite (move_fmap attr_x) by reflexivity. exact Hae. }
  destruct (d2 !! m) as [e2|] eqn:He2; [|discriminate].
  cbn in Hd2. injection Hd2 as Hx2.
  assert (Hgrid2 : on_grid (getAttrValue e2 (attr_of_axis AxisX))).
  { cbn. rewrite Hx2. exact Hgrid. }
  destruct (move_zero_result d2 m AxisX (3 * running inp) e2 Hrun He2) as (q & Hq & He' & _).
  eexists. split; [exact He'|].
  cbn [setAttrValue attr_x]. unfold on_grid in Hgrid2. cbn in Hgrid2, Hq.
  rewrite (round1_comp _ _ Hq), Hgrid2, Hx2. reflexivity.
Qed.

Lemma main_no_run_keeps_x_witness :
  exists e', doc (main 0 hold (initial meadow)) !! 0%nat = Some e' /\ attr_x e' == attr_x player0.
Proof.
  apply (main_no_run_keeps_x 0 hold (initial meadow) player0).
  - reflexivity.
  - reflexivity.
  - qeval.
Defined.

(** ** Integer coordinates *)

Lemma is_int_inject (z : Z) : is_int (inject_Z z).
Proof. exists z. reflexivity. Qed.

Lemma is_int_comp (a b : Q) : a == b -> is_int a -> is_int b.
Proof. intros Hab [z Hz]. exists z. rewrite <- Hab. exact Hz. Qed.

Lemma is_int_plus (a b : Q) : is_int a -> is_int b -> is_int (a + b).
Proof.
  intros [x Hx] [y Hy]. exists (x + y)%Z. rewrite inject_Z_plus, Hx, Hy. reflexivity.
Qed.

Lemma is_int_opp (a : Q) : is_int a -> is_int (- a).
Proof.
  intros [x Hx]. exists (- x)%Z. rewrite inject_Z_opp, Hx. reflexivity.
Qed.

Lemma is_int_minus (a b : Q) : is_int a -> is_int b -> is_int (a - b).
Proof. intros Ha Hb. apply is_int_plus; [exact Ha | apply is_int_opp, Hb]. Qed.

Lemma is_int_mult (a b : Q) : is_int a -> is_int b -> is_int (a * b).
Proof.
  intros [x Hx] [y Hy]. exists (x * y)%Z. rewrite inject_Z_mult, Hx, Hy. reflexivity.
Qed.

Lemma round1_int (z : Z) : round1 (inject_Z z) == inject_Z z.
Proof.
  assert (E : inject_Z z == inject_Z (z * 10) / 10).
  { rewrite inject_Z_mult. field. }
  rewrite (round1_comp _ _ E), round1_tenths. symmetry. exact E.
Qed.

Lemma is_int_round1 (q : Q) : is_int q -> is_int (round1 q).
Proof.
  intros [z Hz]. exists z. rewrite (round1_comp _ _ Hz). apply round1_int.
Qed.

Lemma integral_getAttrValue e a : integral e -> is_int (getAttrValue e a).
Proof. intros (Hx & Hy & Hw & Hh). destruct a; assumption. Qed.

Lemma integral_setAttrValue e axis q : integral e -> is_int q -> integral (setAttrValue e axis q).
Proof.
  intros (Hx & Hy & Hw & Hh) Hq. apply is_int_round1 in Hq.
  destruct axis; repeat split; assumption.
Qed.

Lemma new_position_int axis vel before r e :
  integral r -> integral e -> is_int before -> is_int (new_position axis vel before r e).
Proof.
  intros Hr He Hb. unfold new_position.
  destruct (Qlt_bool vel 0); [|destruct (Qlt_bool 0 vel)]; [| |exact Hb].
  - apply is_int_plus; [|apply (is_int_inject 1)].
    apply is_int_plus; apply integral_getAttrValue; exact Hr.
  - apply is_int_minus; [|apply (is_int_inject 1)].
    apply is_int_minus; apply integral_getAttrValue; assumption.
Qed.

Lemma move_integral d movable axis vel :
  integral_doc d -> is_int vel -> integral_doc (mr_store (move d movable axis vel)).
Proof.
  intros Hd Hvel j e' Hj.
  destruct (decide (j = movable)) as [->|Hne].
  - destruct (d !! movable) as [e|] eqn:He.
    + destruct (Hd movable e He) as [Hint Hv].
      assert (Hbefore : is_int (getAttrValue e (attr_of_axis axis)))
        by (apply integral_getAttrValue; exact Hint).
      destruct (move_moved_element d movable axis vel e He)
        as [[_ Hs] | (k & r & _ & Hr & Hs)]; rewrite Hs in Hj; injection Hj as <-.
      * split; [|rewrite elevator_vel_setAttrValue; exact Hv].
        apply integral_setAttrValue; [exact Hint|]. apply is_int_plus; assumption.
      * split; [|rewrite elevator_vel_setAttrValue; exact Hv].
        apply integral_setAttrValue; [exact Hint|].
        apply new_position_int; [apply (Hd k r Hr) | | exact Hbefore].
        apply integral_setAttrValue; [exact Hint|]. apply is_int_plus; assumption.
    + unfold move in Hj. rewrite He in Hj. cbn [mr_store] in Hj.
      rewrite He in Hj. discriminate.
  - rewrite move_lookup_ne in Hj by exact Hne. apply (Hd j e' Hj).
Qed.

Lemma elevator_vel_now_int el :
  (forall v, elevator_vel el = Some v -> is_int v) -> is_int (elevator_vel_now el).
Proof.
  intros Hv. unfold elevator_vel_now.
  destruct (vel_unset (elevator_vel el)); [apply (is_int_inject 1)|].
  destruct (elevator_vel el) as [v|]; [apply Hv; reflexivity | apply (is_int_inject 1)].
Qed.

Lemma elevator_step_integral m ground d i :
  integral_doc d -> integral_doc (elevator_step m ground d i).
Proof.
  intros Hd. unfold elevator_step. destruct (d !! i) as [el|] eqn:He; [|exact Hd].
  destruct (Hd i el He) as [Hint Hv].
  assert (Hnow : is_int (elevator_vel_now el)) by (apply elevator_vel_now_int; exact Hv).
  assert (Henter : integral_doc (elevator_enter ground d i el)).
  { intros j e' Hj. unfold elevator_enter in Hj.
    apply list_lookup_insert_Some in Hj. destruct Hj as [(-> & <- & _) | (_ & Hj)].
    - split; [exact Hint|]. intros v [= <-]. exact Hnow.
    - apply (Hd j e' Hj). }
  assert (Hcarry : integral_doc (elevator_carry m ground d i el)).
  { unfold elevator_carry. destruct (option_nat_eqb ground i); [|exact Henter].
    apply move_integral; assumption. }
  assert (Hown : integral_doc (mr_store (elevator_move m ground d i el))).
  { unfold elevator_move. apply move_integral; assumption. }
  destruct (stopped_arg (elevator_move m ground d i el)); [|exact Hown].
  intros j e' Hj. rewrite list_lookup_alter in Hj. case_decide; [subst j|apply (Hown j e' Hj)].
  destruct (mr_store (elevator_move m ground d i el) !! i) as [e0|] eqn:He0; [|discriminate].
  cbn in Hj. injection Hj as <-. destruct (Hown i e0 He0) as [Hint0 Hv0].
  split; [exact Hint0|]. cbn. intros v Hvv.
  destruct (elevator_vel e0) as [v0|]; [|discriminate].
  cbn in Hvv. injection Hvv as <-. apply is_int_opp, Hv0. reflexivity.
Qed.

Lemma elevators_from_integral m ground l : forall d,
  integral_doc d -> integral_doc (elevators_from m ground l d).
Proof.
  induction l as [|i l IH]; intros d Hd; [exact Hd|].
  cbn [elevators_from fold_left]. apply IH, elevator_step_integral, Hd.
Qed.

Lemma main_integral m inp s : integral_doc (doc s) -> integral_doc (doc (main m inp s)).
Proof.
  intros Hd. unfold main, tick. cbn [t_next doc].
  assert (Hae : integral_doc (elevators m (stopped_arg (move (doc s) m AxisY 3))
                                (mr_store (move (doc s) m AxisY 3)))).
  { apply elevators_from_integral, move_integral; [exact Hd | apply (is_int_inject 3)]. }
  apply move_integral.
  - match goal with |- context [if ?c then mr_store ?x else ?y] => destruct c end;
      [|exact Hae].
    apply move_integral; [exact Hae | apply (is_int_inject (-5))].
  - apply is_int_mult; [apply (is_int_inject 3)|].
    unfold running. destruct (in_left inp), (in_right inp); cbn;
      first [apply (is_int_inject 0) | apply (is_int_inject 1) | apply (is_int_inject (-1))].
Qed.

Lemma run_integral m : forall inps s,
  integral_doc (doc s) -> integral_doc (doc (run m inps s)).
Proof.
  induction inps as [|inp rest IH]; intros s Hs; [exact Hs|].
  cbn [run]. apply IH, main_integral, Hs.
Qed.

(** The game after [initialize] and some frames is the game after the ticks
    of the frames at which [gameLoop] called [main]. *)
Lemma gameLoop_run m : forall frames lastTime s,
  snd (fold_left (gameLoop m) frames (lastTime, s)) =
  run m (map snd (ticking lastTime frames)) s.
Proof.
  induction frames as [|[t inp] rest IH]; intros lastTime s; [reflexivity|].
  cbn [fold_left ticking gameLoop].
  destruct (Qle_bool targetFrameTime (t - lastTime)); cbn [map snd run]; apply IH.
Qed.

(** X13.  Integer coordinates stay integers: from a state whose document
    holds only integer coordinates, sizes and velocities, the calls of
    [gameLoop] for any animation frames, at any times and with any inputs,
    leave only integers in the document. *)
Theorem gameLoop_keeps_integers
    (m : nat) (frames : list (Q * Input)) (lastTime : Q) (s : State) :
  integral_doc (doc s) ->
  integral_doc (doc (snd (fold_left (gameLoop m) frames (lastTime, s)))).
Proof.
  revert lastTime s.
  induction frames as [|[t inp] rest IH]; intros lastTime s Hs; [exact Hs|].
  cbn [fold_left gameLoop].
  destruct (Qle_bool targetFrameTime (t - lastTime)).
  - apply IH, main_integral, Hs.
  - apply IH, Hs.
Qed.

Lemma gameLoop_keeps_integers_witness :
  integral_doc
    (doc (snd (fold_left (gameLoop 0) [(50, idle); (120, hold); (230, idle)]
                 (0, initial level0)))).
Proof.
  apply gameLoop_keeps_integers.
  intros j e H.
  do 3 (destruct j as [|j];
        [injection H as <-; split;
           [repeat split; eexists; reflexivity | intros v Hv; discriminate Hv]|]).
  discriminate H.
Defined.

(** ** Frame timing *)

Lemma ticking_spaced : forall frames lastTime, spaced lastTime (ticking lastTime frames).
Proof.
  induction frames as [|[t inp] rest IH]; intros lastTime; [exact I|].
  cbn [ticking]. destruct (Qle_bool targetFrameTime (t - lastTime)) eqn:E; [|apply IH].
  cbn [spaced]. split; [|apply IH].
  apply Qle_bool_iff in E. unfold targetFrameTime in *. lra.
Qed.

Lemma ticking_lower_bound : forall frames lastTime k t inp,
  ticking lastTime frames !! k = Some (t, inp) ->
  lastTime + targetFrameTime * inject_Z (Z.of_nat (S k)) <= t.
Proof.
  induction frames as [|[t0 inp0] rest IH]; intros lastTime k t inp Hk; [discriminate Hk|].
  cbn [ticking] in Hk.
  destruct (Qle_bool targetFrameTime (t0 - lastTime)) eqn:E; [|apply (IH _ _ _ _ Hk)].
  apply Qle_bool_iff in E.
  destruct k as [|k].
  - cbn in Hk. injection Hk as <- <-.
    change (inject_Z (Z.of_nat 1)) with 1. unfold targetFrameTime in *. lra.
  - cbn [lookup] in Hk. apply IH in Hk.
    rewrite Nat2Z.inj_succ. unfold Z.succ. rewrite inject_Z_plus.
    change (inject_Z 1) with 1. unfold targetFrameTime in *. lra.
Qed.

(** X14.  [gameLoop] calls [main] only at frames that come at least 100 ms
    after the frame of the previous call (the first at least 100 ms after
    time zero), and the state of the game after any frames is the one
    produced by exactly those calls, on the cleaned document. *)
Theorem initialize_ticks (m : nat) (d : list Elem) (frames : list (Q * Input)) :
  spaced 0 (ticking 0 frames) /\
  snd (initialize m d frames) =
    run m (map snd (ticking 0 frames)) (initial (svg_clean d)).
Proof.
  split; [apply ticking_spaced | apply gameLoop_run].
Qed.

(** X15.  The call number [k + 1] of [main] happens no earlier than
    [100 * (k + 1)] ms: the game never runs faster than ten ticks a second,
    however often animation frames arrive. *)
Theorem initialize_tick_rate (frames : list (Q * Input)) (k : nat) (t : Q) (inp : Input) :
  ticking 0 frames !! k = Some (t, inp) ->
  100 * inject_Z (Z.of_nat (S k)) <= t.
Proof.
  intros Hk. pose proof (ticking_lower_bound frames 0 k t inp Hk) as H.
  unfold targetFrameTime in H. lra.
Qed.

Lemma initialize_tick_rate_witness :
  100 * inject_Z (Z.of_nat 2) <= 230.
Proof.
  apply (initialize_tick_rate [(50, idle); (120, hold); (130, idle); (230, idle)] 1 230 idle).
  reflexivity.
Defined.

End JsGameExtra.

(** * Facts about the input latch *)

Module LatchSpec.
Import JsGame JsGameShell.

Local Open Scope string_scope.

Lemma pointer_cases value id l :
  fst (pointer value id l) = mkLatch value (l_right l) (l_jumping l) (l_fire l) \/
  fst (pointer value id l) = mkLatch (l_left l) value (l_jumping l) (l_fire l) \/
  fst (pointer value id l) = mkLatch (l_left l) (l_right l) value (l_fire l) \/
  fst (pointer value id l) = l.
Proof.
  unfold pointer.
  destruct (String.eqb id "left"); [auto|].
  destruct (String.eqb id "right"); [auto|].
  destruct (String.eqb id "third"); auto.
Qed.

(** X18.  Handling the same event twice is the same as handling it once
    (key auto-repeat does not change the latch), and a release undoes a
    press of the same control whatever the latch held before. *)
Theorem latch_repeat_and_release (l : Latch) (ev : Event) (c : string) :
  handle (handle l ev) ev = handle l ev /\
  handle (handle l (KeyDown c)) (KeyUp c) = handle l (KeyUp c) /\
  handle (handle l (MouseDown c)) (MouseUp c) = handle l (MouseUp c).
Proof.
  split; [|split].
  - destruct ev as [id|id|k|k]; cbn [handle]; unfold onmousedown, onmouseup, onkeydown, onkeyup, pointer, key;
      repeat match goal with |- context [String.eqb ?a ?b] => destruct (String.eqb a b) eqn:? end;
      try reflexivity; try congruence.
  - cbn [handle]. unfold onkeydown, onkeyup, key.
    repeat match goal with |- context [String.eqb ?a ?b] => destruct (String.eqb a b) eqn:? end;
      try reflexivity; try congruence.
  - cbn [handle]. unfold onmousedown, onmouseup, pointer.
    repeat match goal with |- context [String.eqb ?a ?b] => destruct (String.eqb a b) eqn:? end;
      try reflexivity; try congruence.
Qed.

(** X19.  The space bar only writes [fire], which [main] does not read, and
    the pointer handlers never write [fire]; the three controls on screen and
    the three arrow keys write the same three intents. *)
Theorem latch_fire_is_separate (l : Latch) (value : bool) (id : string) :
  read (fst (key value " " l)) = read l /\
  l_fire (fst (pointer value id l)) = l_fire l /\
  fst (pointer value "left" l) = fst (key value "ArrowLeft" l) /\
  fst (pointer value "right" l) = fst (key value "ArrowRight" l) /\
  fst (pointer value "third" l) = fst (key value "ArrowUp" l).
Proof.
  split; [reflexivity|]. split; [|repeat split].
  destruct (pointer_cases value id l) as [H | [H | [H | H]]]; rewrite H; reflexivity.
Qed.

End LatchSpec.

(** * More facts about the earlier variants *)

Module LegacyExtra.
Import Legacy LegacySpec LegacyElevator.

Local Open Scope Z_scope.

Lemma set_axis_same e axis : set_axis e axis (attr e (attr_of_axis axis)) = e.
Proof. destruct e, axis; reflexivity. Qed.

Section Variant.

Variable collision : Rect -> Rect -> bool.
Variable gap : Z.
Variable skips_pattern : bool.

Lemma legacy_move_lookup_ne doc movable axis vel res j :
  Legacy.move collision gap skips_pattern doc movable axis vel = Some res ->
  j <> movable -> mr_store res !! j = doc !! j.
Proof.
  intros Hmove Hj.
  destruct (doc !! movable) as [e|] eqn:He.
  - destruct (legacy_move_cases collision gap skips_pattern doc movable axis vel e res He Hmove)
      as [(_ & _ & ->) | (k & r & _ & _ & _ & ->)];
      apply list_lookup_insert_ne; congruence.
  - unfold Legacy.move in Hmove. rewrite He in Hmove. discriminate.
Qed.

(** X20.  In [part_000] and [part_001] the displacement returned by [move]
    is never larger in magnitude than the requested velocity. *)
Theorem legacy_displacement_bounded
    (doc : list Rect) (movable : nat) (axis : Axis) (vel : Z) (res : MoveResult) :
  Legacy.move collision gap skips_pattern doc movable axis vel = Some res ->
  Z.abs (difference res) <= Z.abs vel.
Proof.
  intros Hmove.
  destruct (doc !! movable) as [e|] eqn:He.
  - destruct (legacy_move_cases collision gap skips_pattern doc movable axis vel e res He Hmove)
      as [(_ & Hd & _) | (k & r & _ & _ & Hd & _)]; rewrite Hd; [lia|].
    apply new_position_bounded.
  - unfold Legacy.move in Hmove. rewrite He in Hmove. discriminate.
Qed.

(** X21.  In [part_000] and [part_001] a move with velocity zero returns 0
    and leaves the whole document as it was, whether or not anything
    collides. *)
Theorem legacy_zero_velocity (doc : list Rect) (movable : nat) (axis : Axis) (e : Rect) :
  doc !! movable = Some e ->
  exists collided,
    Legacy.move collision gap skips_pattern doc movable axis 0 =
    Some (mkMoveResult doc 0 collided).
Proof.
  intros He.
  destruct (Legacy.move collision gap skips_pattern doc movable axis 0) as [res|] eqn:Hmove.
  - destruct (legacy_move_cases collision gap skips_pattern doc movable axis 0 e res He Hmove)
      as [(Hc & Hd & Hs) | (k & r & Hc & _ & Hd & Hs)].
    + exists None. destruct res as [st df cw]. cbn in *. subst.
      rewrite Z.add_0_r, set_axis_same, list_insert_id by exact He. reflexivity.
    + exists (Some k). destruct res as [st df cw]. cbn in *. subst.
      unfold new_position. cbn.
      rewrite set_axis_same, list_insert_id by exact He.
      f_equal. f_equal. lia.
  - unfold Legacy.move in Hmove. rewrite He in Hmove.
    destruct (scan collision gap skips_pattern movable axis 0 _ 0 doc _ None). discriminate.
Qed.

(** X23.  In [part_000] and [part_001] an elevator that does not go up
    leaves the player's element as it is, even when the player stands on
    the elevator. *)
Theorem legacy_descending_does_not_carry
    (m i : nat) (ground : option nat) (d d' : list Rect) (vels vels' : gmap nat Z) :
  0 <= vel_now vels i ->
  m <> i ->
  elevator_step (Legacy.move collision gap skips_pattern) m ground (d, vels) i = Some (d', vels') ->
  d' !! m = d !! m.
Proof.
  intros Hv Hmi. unfold elevator_step, elevator_carry.
  destruct (Z.ltb_spec (vel_now vels i) 0) as [Hneg|_]; [lia|]. cbn [andb].
  destruct (Legacy.move collision gap skips_pattern d i AxisY (vel_now vels i)) as [r|] eqn:Hmove;
    [|discriminate].
  intros H.
  assert (Hd' : d' = mr_store r).
  { destruct (difference r =? 0); [destruct (bool_decide (collided_with r = Some m))|];
      injection H as <- _; reflexivity. }
  subst d'. eapply legacy_move_lookup_ne; [exact Hmove | exact Hmi].
Qed.

Lemma vel_now_insert (vels : gmap nat Z) (i : nat) :
  vel_now (<[i := vel_now vels i]> vels) i = vel_now vels i.
Proof.
  unfold vel_now at 1. rewrite lookup_insert_eq.
  destruct (Z.eqb_spec (vel_now vels i) 0) as [E|]; [|reflexivity].
  exfalso. unfold vel_now in E.
  destruct (vels !! i) as [v|]; [|discriminate].
  destruct (Z.eqb_spec v 0); [discriminate | contradiction].
Qed.

(** A move that returns a zero difference with an obstacle recorded has put
    the element back where it was. *)
Lemma legacy_move_stopped_store doc movable axis vel res k :
  Legacy.move collision gap skips_pattern doc movable axis vel = Some res ->
  difference res = 0 -> collided_with res = Some k ->
  mr_store res = doc.
Proof.
  intros Hmove Hdiff Hc.
  destruct (doc !! movable) as [e|] eqn:He.
  - destruct (legacy_move_cases collision gap skips_pattern doc movable axis vel e res He Hmove)
      as [(Hn & _ & _) | (k' & r & _ & _ & Hd & Hs)]; [congruence|].
    rewrite Hs.
    replace (new_position gap axis vel (attr e (attr_of_axis axis)) r e)
      with (attr e (attr_of_axis axis)) by lia.
    rewrite set_axis_same. apply list_insert_id. exact He.
  - unfold Legacy.move in Hmove. rewrite He in Hmove. discriminate.
Qed.

(** X22.  In [part_000] and [part_001] an elevator that does not go up and
    whose own move is stopped by the player (zero difference, the player
    recorded) leaves the document as it is and keeps its velocity: the
    iteration ends in the document it started from, and the next iteration
    from there ends in the same state again.  The elevator waits for as long
    as the player stays in its way. *)
Theorem legacy_elevator_waits_for_player
    (m i : nat) (ground : option nat) (d : list Rect) (vels : gmap nat Z) (r : MoveResult) :
  0 <= vel_now vels i ->
  Legacy.move collision gap skips_pattern d i AxisY (vel_now vels i) = Some r ->
  difference r = 0 ->
  collided_with r = Some m ->
  let w := (d, <[i := vel_now vels i]> vels) in
  elevator_step (Legacy.move collision gap skips_pattern) m ground (d, vels) i = Some w /\
  elevator_step (Legacy.move collision gap skips_pattern) m ground w i = Some w.
Proof.
  intros Hv Hmove Hdiff Hc w.
  pose proof (legacy_move_stopped_store d i AxisY _ r m Hmove Hdiff Hc) as Hstore.
  assert (Hstep : forall vels0, vel_now vels0 i = vel_now vels i ->
            elevator_step (Legacy.move collision gap skips_pattern) m ground (d, vels0) i =
            Some (d, <[i := vel_now vels i]> vels0)).
  { intros vels0 E. unfold elevator_step, elevator_carry. rewrite E.
    destruct (Z.ltb_spec (vel_now vels i) 0) as [Hneg|_]; [lia|]. cbn [andb].
    rewrite Hmove, Hdiff, Hc, Hstore. cbn [Z.eqb].
    rewrite bool_decide_eq_true_2 by reflexivity. reflexivity. }
  split.
  - apply Hstep. reflexivity.
  - unfold w. rewrite Hstep by apply vel_now_insert.
    rewrite insert_insert_eq. reflexivity.
Qed.

End Variant.

Lemma legacy_displacement_bounded_witness :
  Z.abs (difference (mkMoveResult (<[0%nat := rect 0 89 10 10]> falling) 2 (Some 1%nat))) <= Z.abs 3.
Proof.
  apply (legacy_displacement_bounded Part000.collision 1 false falling 0 AxisY 3).
  reflexivity.
Defined.

Lemma legacy_zero_velocity_witness :
  exists collided,
    Part000.move sunk 0 AxisX 0 = Some (mkMoveResult sunk 0 collided).
Proof.
  apply (legacy_zero_velocity Part000.collision 1 false sunk 0 AxisX (rect 0 95 10 10)).
  reflexivity.
Defined.

Lemma legacy_elevator_waits_for_player_witness :
  elevator_step Part000.move 0 (Some 1%nat) (squeeze, ∅) 2 = Some (squeeze, <[2%nat := 1]> ∅) /\
  elevator_step Part000.move 0 (Some 1%nat) (squeeze, <[2%nat := 1]> ∅) 2 =
    Some (squeeze, <[2%nat := 1]> ∅).
Proof.
  change 1 with (vel_now ∅ 2).
  apply (legacy_elevator_waits_for_player Part000.collision 1 false 0 2 (Some 1%nat) squeeze ∅
           (mkMoveResult squeeze 0 (Some 0%nat))).
  - vm_compute. intros H. discriminate H.
  - reflexivity.
  - reflexivity.
  - reflexivity.
Defined.

Lemma legacy_descending_does_not_carry_witness :
  [rect 0 89 10 10; rect 0 101 50 5] !! 0%nat = carrying !! 0%nat.
Proof.
  apply (legacy_descending_does_not_carry Part000.collision 1 false 0 1 (Some 1%nat)
           carrying _ ∅ (<[1%nat := 1]> ∅)).
  - vm_compute. intros H. discriminate H.
  - discriminate.
  - reflexivity.
Defined.

End LegacyExtra.

(** * Facts about the variant kept after the current script *)

Module OlderSpec.
Import Legacy LegacySpec.

Local Open Scope Z_scope.





End OlderSpec.
